(** * mermaid.ts: web page integration of the mermaid framework

    A shallow embedding of [packages/mermaid/src/mermaid.ts]: the error
    normalizer [handleError], the scan/render orchestrator
    [runThrowsErrors] with its public wrapper [run], and the serialized
    operation queue behind [parse] and [render] ([executeQueue]).

    Conventions of the embedding.
    - Everything the module does to the outside (log lines, calls of the
      [parseError] hook, engine calls, callbacks, writes to elements,
      settling of promises) is appended, in program order, to the [trace]
      of the [World].
    - The document is a store of elements addressed by reference, so a
      node list may name one element twice.
    - A thrown JavaScript value is a [JsValue]; a computation is a function
      of the world that completes normally or throws, and the world it
      leaves behind is kept in both cases, as in JavaScript.  A pass of
      [run] awaits each call before the next statement, so it is modelled
      as one sequential computation.
    - The queue is driven by several callers at once.  Its model is a
      transition system over the module variables and the promises in
      flight; a transition is what happens in one uninterrupted stretch of
      JavaScript: a call of [parse] or [render] up to the first [await],
      the handlers of a settled engine promise, the loop of
      [executeQueue] from one [await] to the next, or the job that settles
      the promise of the async function [parse].  Which transition comes
      next, what the engine answers, and whether a call of the
      [parseError] hook made by the queue returns or throws, is left to
      the environment.
    - The rendering engine, the document queries, the text utilities and
      the id generator live outside this file of the repository; they are
      the fields of the class [Collaborators].  The engine and the
      callbacks answer with a result or a failure and are taken not to
      write to the document themselves.  The logger is taken to return
      normally, and so is the [parseError] hook where a pass of [run]
      calls it; where the queue calls it, it may throw. *)

From Stdlib Require Import List String Bool Arith Lia DecimalString FinFun.
Import ListNotations.
Local Open Scope string_scope.
Local Open Scope list_scope.

Set Implicit Arguments.
Set Warnings "-register-all".

(* ===================================================================== *)
(** * Values, elements and the observable trace *)
(* ===================================================================== *)

(** [DetailedError] of utils.ts: [{ str; hash; error?; message? }].  The
    type of the attached original failure is a parameter so that thrown
    values and detailed errors can refer to each other. *)
Record DetailedError_ (V : Type) : Type := mkDetailedError
  { str : string;
    hash : string;
    message : option string;
    error : option V }.

(** The values that travel on the error paths, split the way the code
    tests them: an object exposing [str] (and [hash]), an instance of
    [Error] (with its [name] and [message]), or anything else (a thrown
    string, a number, a plain object). *)
Inductive JsValue : Type :=
| VDetailed (d : DetailedError_ JsValue)
| VError (name : string) (msg : string)
| VOther (repr : string).

Definition DetailedError : Type := DetailedError_ JsValue.

(** Modelled from the spec: the type guard [isDetailedError] of utils.ts,
    which is not among the sources.  A failure is a detailed error when it
    already carries the structured fields [str] and [hash];
    [asDetailedError] is the failure seen at the narrowed type. *)
Definition asDetailedError (e : JsValue) : option DetailedError :=
  match e with
  | VDetailed d => Some d
  | _ => None
  end.

(** Modelled from the spec: [isDetailedError(e)] of utils.ts, as a test. *)
Definition isDetailedError (e : JsValue) : bool :=
  match asDetailedError e with
  | Some _ => true
  | None => false
  end.

(** [error instanceof Error], with the [name] and [message] it exposes. *)
Definition instanceofError (e : JsValue) : option (string * string) :=
  match e with
  | VError name msg => Some (name, msg)
  | _ => None
  end.

(** References to elements of the document tree, and the attributes of an
    element this module reads or writes. *)
Definition ref : Type := nat.

Record Element : Type := mkElement
  { el_id : string;                      (* element.id *)
    data_processed : option string;      (* getAttribute('data-processed') *)
    innerHTML : string }.

Definition Document : Type := ref -> Element.

(** JavaScript truthiness of the values the code branches on. *)
Definition truthy_string (s : string) : bool :=
  match s with
  | EmptyString => false
  | String _ _ => true
  end.

Definition truthy_attr (a : option string) : bool :=
  match a with
  | Some s => truthy_string s
  | None => false
  end.

Definition truthy_flag (b : option bool) : bool :=
  match b with
  | Some true => true
  | _ => false
  end.

Definition string_of_nat (n : nat) : string :=
  NilEmpty.string_of_uint (Nat.to_uint n).

Definition string_of_bool (b : bool) : string :=
  if b then "true" else "false".

Inductive Level : Type := Debug | Info | Warn | Error.

(** An argument handed to the logger or to the hook. *)
Inductive Arg : Type :=
| AStr (s : string)
| AVal (v : JsValue).

(** [ParseErrorFunction]: the hook stored in [mermaid.parseError]. *)
Inductive ParseErrorFunction : Type :=
| Handler (tag : nat).

(** What an engine call came to, as recorded in the trace. *)
Inductive Outcome : Type :=
| Produced (artifact : string)
| Failed (e : JsValue).

(** The two kinds of queued operation with their arguments. *)
Inductive Operation : Type :=
| OpParse (text : string)
| OpRender (id : string) (text : string).

(** A queued unit: the [performCall] closure of [parse] or [render]; it
    captures the operation and the [resolve]/[reject] pair of the promise
    handed to the caller, named here by the caller's number. *)
Record Unit : Type := mkUnit
  { caller : nat;
    operation : Operation }.

Inductive Event : Type :=
| EvLog (lvl : Level) (args : list Arg)
| EvParseError (h : ParseErrorFunction) (err : Arg) (hash_arg : option string)
| EvUpdateSiteConfig (startOnLoad_ : bool)
| EvSetAttribute (element : ref) (name value : string)
| EvRender (id txt : string) (element : ref) (o : Outcome)
| EvSetInnerHTML (element : ref) (svg_ : string)
| EvPostRenderCallback (id : string)
| EvBindFunctions (element : ref)
| EvEngineCall (u : Unit)
| EvRes (c : nat) (r : string)
| EvResolve (c : nat) (r : string)
| EvRej (c : nat) (e : JsValue)
| EvReject (c : nat) (e : JsValue)
| EvAsyncResolve (c : nat) (r : string)
| EvAsyncReject (c : nat) (e : JsValue).

(** The ambient state: the document, the [mermaid.parseError] field and
    everything observable done so far. *)
Record World : Type := mkWorld
  { dom : Document;
    parseError : option ParseErrorFunction;
    trace : list Event }.

(* ===================================================================== *)
(** * Computations that may throw *)
(* ===================================================================== *)

Inductive Completion (A : Type) : Type :=
| Normal (a : A)
| Throw (e : JsValue).

Arguments Normal {A} a.
Arguments Throw {A} e.

Definition M (A : Type) : Type := World -> Completion A * World.

Definition ret {A} (a : A) : M A := fun w => (Normal a, w).

Definition throw {A} (e : JsValue) : M A := fun w => (Throw e, w).

Definition bind {A B} (m : M A) (k : A -> M B) : M B :=
  fun w =>
    match m w with
    | (Normal a, w') => k a w'
    | (Throw e, w') => (Throw e, w')
    end.

(** [try { m } catch (e) { h e }] *)
Definition try_catch {A} (m : M A) (h : JsValue -> M A) : M A :=
  fun w =>
    match m w with
    | (Normal a, w') => (Normal a, w')
    | (Throw e, w') => h e w'
    end.

Declare Scope js_scope.
Delimit Scope js_scope with js.
Notation "x <- c1 ;; c2" := (bind c1 (fun x => c2))
  (at level 61, c1 at next level, right associativity) : js_scope.
Notation "c1 ;; c2" := (bind c1 (fun _ => c2))
  (at level 61, right associativity) : js_scope.
Local Open Scope js_scope.

Definition emit (ev : Event) : M unit :=
  fun w => (Normal tt, mkWorld (dom w) (parseError w) (trace w ++ [ev])).

Definition log (lvl : Level) (args : list Arg) : M unit := emit (EvLog lvl args).

Definition getParseError : M (option ParseErrorFunction) :=
  fun w => (Normal (parseError w), w).

Definition getDocument : M Document :=
  fun w => (Normal (dom w), w).

Definition getElement (element : ref) : M Element :=
  fun w => (Normal (dom w element), w).

Definition update (d : Document) (element : ref) (e : Element) : Document :=
  fun r => if Nat.eqb r element then e else d r.

Definition modifyElement (element : ref) (f : Element -> Element) : M unit :=
  fun w => (Normal tt,
            mkWorld (update (dom w) element (f (dom w element)))
                    (parseError w) (trace w)).

(** [element.setAttribute('data-processed', value)] *)
Definition setAttribute (element : ref) (value : string) : M unit :=
  modifyElement element
    (fun e => mkElement (el_id e) (Some value) (innerHTML e)) ;;
  emit (EvSetAttribute element "data-processed" value).

(** [element.innerHTML = svg] *)
Definition setInnerHTML (element : ref) (svg_ : string) : M unit :=
  modifyElement element
    (fun e => mkElement (el_id e) (data_processed e) svg_) ;;
  emit (EvSetInnerHTML element svg_).

(** Calling the hook: [parseError(err)] or [parseError(str, hash)]. *)
Definition callParseError (h : ParseErrorFunction) (err : Arg)
           (hash_arg : option string) : M unit :=
  emit (EvParseError h err hash_arg).

(** [for (const x of l) { s = body x s }]; a throw leaves the loop. *)
Fixpoint forOf {A S : Type} (l : list A) (body : A -> S -> M S) (s : S) : M S :=
  match l with
  | [] => ret s
  | x :: l' => s' <- body x s ;; forOf l' body s'
  end.

(* ===================================================================== *)
(** * The error normalizer (mermaid.ts, lines 41-64) *)
(* ===================================================================== *)

(** [handleError(error, errors, parseError)]; the array [errors] is passed
    in and the array after the call is returned. *)
Definition handleError (error_ : JsValue) (errors : list DetailedError)
           (parseError_ : option ParseErrorFunction) : M (list DetailedError) :=
  log Warn [AVal error_] ;;
  match asDetailedError error_ with
  | Some d =>
      match parseError_ with
      | Some h => callParseError h (AStr (str d)) (Some (hash d))
      | None => ret tt
      end ;;
      (* errors.push({ ...error, message: error.str, error }) *)
      ret (errors ++ [mkDetailedError (str d) (hash d) (Some (str d)) (Some error_)])
  | None =>
      match parseError_ with
      | Some h => callParseError h (AVal error_) None
      | None => ret tt
      end ;;
      match instanceofError error_ with
      | Some (name, msg) =>
          ret (errors ++ [mkDetailedError msg name (Some msg) (Some error_)])
      | None => ret errors
      end
  end.

(* ===================================================================== *)
(** * The scan/render orchestrator (mermaid.ts, lines 86-178) *)
(* ===================================================================== *)

(** [RunOptions] (lines 33-39); every field is optional. *)
Record RunOptions : Type := mkRunOptions
  { querySelector : option string;
    nodes : option (list ref);
    postRenderCallback : option (string -> option JsValue);
    suppressErrors : option bool }.

(** The default parameter value [{ querySelector: '.mermaid' }], used when
    the options argument is left out. *)
Definition defaultRunOptions : RunOptions :=
  mkRunOptions (Some ".mermaid") None None None.

(** The part of the configuration read by [runThrowsErrors]. *)
Record MermaidConfig : Type := mkConfig
  { startOnLoad : option bool;
    deterministicIds : option bool;
    deterministicIDSeed : option string }.

(** A settled promise. *)
Inductive Settled (A : Type) : Type :=
| Fulfilled (a : A)
| Rejected (e : JsValue).

Arguments Fulfilled {A} a.
Arguments Rejected {A} e.

(** [RenderResult]: the artifact and the optional binding hook; the hook
    either returns or throws. *)
Record RenderResult : Type := mkRenderResult
  { svg : string;
    bindFunctions : option (ref -> option JsValue) }.

(** The collaborators of this module that live in other files:
    [mermaidAPI.getConfig], [utils.initIdGenerator] (given here by the
    value of the k-th call of [next] on the generator of the pass at
    hand), the text clean-up
    [dedent(entityDecode(txt)).trim().replace(...)], [utils.detectInit],
    [document.querySelectorAll] and [mermaidAPI.render].  The engine sees
    the document as it is when called and answers with its result; it is
    not given the means to write to the document.  What the generator
    gives is left open: in its deterministic mode it counts, otherwise its
    values come from outside and another pass need not be given the same
    ones, so nothing below compares the ids of two passes. *)
Class Collaborators : Type :=
  { getConfig : MermaidConfig;
    initIdGenerator : option bool -> option string -> nat -> string;
    cleanText : string -> string;
    detectInit : string -> option string;
    querySelectorAll : Document -> string -> list ref;
    mermaidAPI_render : Document -> string -> string -> ref -> Settled RenderResult }.

(** The local variables of [runThrowsErrors] that the loop updates: the
    array [errors] and the number of ids drawn from [idGenerator]. *)
Record LoopState : Type := mkLoopState
  { errors : list DetailedError;
    drawn : nat }.

Section Orchestrator.
Context {C : Collaborators}.

(** [await mermaidAPI.render(id, txt, element)] *)
Definition awaitRender (id txt : string) (element : ref) : M RenderResult :=
  d <- getDocument ;;
  match mermaidAPI_render d id txt element with
  | Fulfilled r => emit (EvRender id txt element (Produced (svg r))) ;; ret r
  | Rejected e => emit (EvRender id txt element (Failed e)) ;; throw e
  end.

(** [await postRenderCallback(id)] *)
Definition awaitCallback (f : string -> option JsValue) (id : string) : M unit :=
  emit (EvPostRenderCallback id) ;;
  match f id with
  | None => ret tt
  | Some e => throw e
  end.

(** [bindFunctions(element)] *)
Definition callBind (f : ref -> option JsValue) (element : ref) : M unit :=
  emit (EvBindFunctions element) ;;
  match f element with
  | None => ret tt
  | Some e => throw e
  end.

(** Lines 116-123: the working set. *)
Definition nodesToProcess (o : RunOptions) : M (list ref) :=
  match nodes o with
  | Some ns => ret ns
  | None =>
      match querySelector o with
      | Some q =>
          if truthy_string q
          then d <- getDocument ;; ret (querySelectorAll d q)
          else throw (VError "Error" "Nodes and querySelector are both undefined")
      | None => throw (VError "Error" "Nodes and querySelector are both undefined")
      end
  end.

(** Lines 140-172: the body of the loop over the elements. *)
Definition processElement (o : RunOptions) (idGenerator : nat -> string)
           (element : ref) (s : LoopState) : M LoopState :=
  e <- getElement element ;;
  log Info [AStr ("Rendering diagram: " ++ el_id e)%string] ;;
  if truthy_attr (data_processed e) then ret s
  else
    setAttribute element "true" ;;
    let id := ("mermaid-" ++ idGenerator (drawn s))%string in
    e <- getElement element ;;
    let txt := cleanText (innerHTML e) in
    match detectInit txt with
    | Some init => log Debug [AStr "Detected early reinit: "; AStr init]
    | None => ret tt
    end ;;
    try_catch
      (r <- awaitRender id txt element ;;
       setInnerHTML element (svg r) ;;
       match postRenderCallback o with
       | Some f => awaitCallback f id
       | None => ret tt
       end ;;
       match bindFunctions r with
       | Some f => callBind f element
       | None => ret tt
       end ;;
       ret (mkLoopState (errors s) (S (drawn s))))
      (fun error_ =>
         h <- getParseError ;;
         errors' <- handleError error_ (errors s) h ;;
         ret (mkLoopState errors' (S (drawn s)))).

(** Lines 139-173: the loop. *)
Definition scan (o : RunOptions) (idGenerator : nat -> string)
           (l : list ref) : M LoopState :=
  forOf l (processElement o idGenerator) (mkLoopState [] 0).

(** [runThrowsErrors] (lines 107-178). *)
Definition runThrowsErrors (options : option RunOptions) : M unit :=
  let o := match options with Some o => o | None => defaultRunOptions end in
  let conf := getConfig in
  log Debug [AStr ((match postRenderCallback o with
                    | None => "No "
                    | Some _ => EmptyString
                    end) ++ "Callback function found")%string] ;;
  l <- nodesToProcess o ;;
  log Debug [AStr ("Found " ++ string_of_nat (List.length l) ++ " diagrams")%string] ;;
  match startOnLoad conf with
  | Some b =>
      log Debug [AStr ("Start On Load: " ++ string_of_bool b)%string] ;;
      emit (EvUpdateSiteConfig b)
  | None => ret tt
  end ;;
  let idGenerator := initIdGenerator (deterministicIds conf) (deterministicIDSeed conf) in
  s <- scan o idGenerator l ;;
  match errors s with
  | [] => ret tt
  | first :: _ => throw (VDetailed first)
  end.

(** [run] (lines 86-105). *)
Definition run (options : option RunOptions) : M unit :=
  let options := match options with Some o => o | None => defaultRunOptions end in
  try_catch (runThrowsErrors (Some options))
    (fun e =>
       match asDetailedError e with
       | Some d => log Error [AStr (str d)]
       | None => ret tt
       end ;;
       h <- getParseError ;;
       match h with
       | Some f => callParseError f (AVal e) None
       | None => ret tt
       end ;;
       if negb (truthy_flag (suppressErrors options))
       then
         log Error [AStr "Use the suppressErrors option to suppress these errors"] ;;
         throw e
       else ret tt).

End Orchestrator.

(** [setParseErrorHandler] (lines 280-282). *)
Definition setParseErrorHandler (h : ParseErrorFunction) : M unit :=
  fun w => (Normal tt, mkWorld (dom w) (Some h) (trace w)).

(* ===================================================================== *)
(** * The serialized operation queue (mermaid.ts, lines 284-361) *)
(* ===================================================================== *)

(** The promise the caller of an operation holds.  [render] is an ordinary
    function and hands out the promise it makes (line 338).  [parse] is an
    [async] function (line 311): what its caller holds is the promise of
    the async function, which follows the promise made at line 312 and is
    settled, with the same outcome, by a job of its own, queued when that
    promise is settled. *)
Definition holdsAsyncPromise (op : Operation) : bool :=
  match op with
  | OpParse _ => true
  | OpRender _ _ => false
  end.

(** The module variables [executionQueue] and [executionQueueRunning],
    together with what the promises in flight look like between two turns
    of the event loop:
    - [inFlight]: the units whose promise is pending: [f()] has made their
      engine call, and a run of [executeQueue] is suspended at [await f()]
      on each of them;
    - [settledCalls]: the units whose engine call has settled and whose
      handlers have run to the end, while the suspended [executeQueue] has
      not been resumed yet;
    - [submitted]: how many times [parse] or [render] has been called;
    - [stalled]: those of the units in flight whose engine call has failed
      and whose rejection handler was cut short by the hook throwing
      (lines 326, 352): [rej] and [reject] were not reached, so the promise
      of the unit stays pending for good;
    - [followUps]: the jobs, in the order they were queued, that pass the
      outcome of the promise made by [parse] on to the promise its caller
      holds. *)
Record QueueState : Type := mkQueue
  { executionQueue : list Unit;
    executionQueueRunning : bool;
    inFlight : list Unit;
    settledCalls : list (Unit * Settled string);
    submitted : nat;
    world : World;
    stalled : list Unit;
    followUps : list (nat * Settled string) }.

Definition emitQ (evs : list Event) (q : QueueState) : QueueState :=
  mkQueue (executionQueue q) (executionQueueRunning q) (inFlight q)
          (settledCalls q) (submitted q)
          (mkWorld (dom (world q)) (parseError (world q))
                   (trace (world q) ++ evs))
          (stalled q) (followUps q).

Definition setRunning (b : bool) (q : QueueState) : QueueState :=
  mkQueue (executionQueue q) b (inFlight q) (settledCalls q) (submitted q)
          (world q) (stalled q) (followUps q).

Definition isCaller (c : nat) (u : Unit) : bool := Nat.eqb (caller u) c.

(** Lines 291-301, from the test of the [while] to the next suspension:
    either the queue is empty and the flag is cleared, or the first unit is
    shifted out and called, which makes its engine call, and the loop
    waits for it. *)
Definition loopHead (q : QueueState) : QueueState :=
  match executionQueue q with
  | [] => setRunning false q
  | f :: rest =>
      emitQ [EvEngineCall f]
        (mkQueue rest (executionQueueRunning q) (inFlight q ++ [f])
                 (settledCalls q) (submitted q) (world q)
                 (stalled q) (followUps q))
  end.

(** [executeQueue()] up to its first suspension (lines 286-292). *)
Definition executeQueue (q : QueueState) : QueueState :=
  if executionQueueRunning q then q
  else loopHead (setRunning true q).

(** The body shared by [parse] and [render] (lines 312-334, 338-360):
    build [performCall], push it, call [executeQueue]. *)
Definition submit (op : Operation) (q : QueueState) : QueueState :=
  let performCall := mkUnit (submitted q) op in
  executeQueue
    (mkQueue (executionQueue q ++ [performCall]) (executionQueueRunning q)
             (inFlight q) (settledCalls q) (S (submitted q)) (world q)
             (stalled q) (followUps q)).

(** [parse] (lines 311-335), an [async] function: its caller holds the
    async function's promise ([holdsAsyncPromise]). *)
Definition parse (text : string) : QueueState -> QueueState :=
  submit (OpParse text).

(** [render] (lines 337-361): its caller holds the promise made at
    line 338. *)
Definition render (id text : string) : QueueState -> QueueState :=
  submit (OpRender id text).

(** The two handlers given to [.then] in [performCall] (lines 318-329),
    when they run to the end. *)
Definition settleHandlers (c : nat) (r : Settled string)
           (h : option ParseErrorFunction) : list Event :=
  match r with
  | Fulfilled v => [EvRes c v; EvResolve c v]
  | Rejected e =>
      [EvLog Error [AStr "Error parsing"; AVal e]]
        ++ match h with
           | Some f => [EvParseError f (AVal e) None]
           | None => []
           end
        ++ [EvRej c e; EvReject c e]
  end.

(** The engine call of caller [c]'s unit settles with [r], and the handler
    for [r] runs to the end: when [r] is a failure, the hook, if one is
    installed, returns.  The outcome of a unit of [parse] is queued for the
    promise its caller holds. *)
Definition engineSettles (c : nat) (r : Settled string) (q : QueueState)
  : option QueueState :=
  match find (isCaller c) (inFlight q) with
  | None => None
  | Some u =>
      if existsb (isCaller c) (stalled q) then None
      else
        Some (emitQ (settleHandlers c r (parseError (world q)))
                (mkQueue (executionQueue q) (executionQueueRunning q)
                         (filter (fun v => negb (isCaller c v)) (inFlight q))
                         (settledCalls q ++ [(u, r)]) (submitted q) (world q)
                         (stalled q)
                         (followUps q
                            ++ if holdsAsyncPromise (operation u)
                               then [(c, r)] else [])))
  end.

(** The engine call of caller [c]'s unit fails with [e] and the hook,
    called with [e], throws (lines 324-326, 350-352): the failure has been
    logged and the hook called, and the handler ends there.  Neither
    [rej(e)] nor [reject(e)] is reached; the unit stays in flight. *)
Definition hookThrows (c : nat) (e : JsValue) (q : QueueState)
  : option QueueState :=
  match find (isCaller c) (inFlight q), parseError (world q) with
  | Some u, Some f =>
      if existsb (isCaller c) (stalled q) then None
      else
        Some (emitQ [EvLog Error [AStr "Error parsing"; AVal e];
                     EvParseError f (AVal e) None]
                (mkQueue (executionQueue q) (executionQueueRunning q)
                         (inFlight q) (settledCalls q) (submitted q) (world q)
                         (stalled q ++ [u]) (followUps q)))
  | _, _ => None
  end.

(** The run of [executeQueue] that awaited caller [c]'s unit goes on
    (lines 294-301): a failure is caught and logged, then the loop test. *)
Definition loopResumes (c : nat) (q : QueueState) : option QueueState :=
  match find (fun p => isCaller c (fst p)) (settledCalls q) with
  | None => None
  | Some (u, r) =>
      let caught :=
        match r with
        | Fulfilled _ => []
        | Rejected e => [EvLog Error [AStr "Error executing queue"; AVal e]]
        end in
      Some (loopHead
              (emitQ caught
                 (mkQueue (executionQueue q) (executionQueueRunning q)
                          (inFlight q)
                          (filter (fun p => negb (isCaller c (fst p)))
                                  (settledCalls q))
                          (submitted q) (world q)
                          (stalled q) (followUps q))))
  end.

(** The promise held by caller [c] of [parse] is settled: the first of the
    queued follow-ups runs.  It was queued by [resolve] or [reject], after
    [res] or [rej] had queued the resumption of the loop, so it runs when
    the loop has gone on from the unit. *)
Definition asyncSettles (c : nat) (q : QueueState) : option QueueState :=
  match followUps q with
  | (c', r) :: rest =>
      if Nat.eqb c' c
         && negb (existsb (fun p => isCaller c (fst p)) (settledCalls q))
      then
        Some (emitQ [match r with
                     | Fulfilled v => EvAsyncResolve c v
                     | Rejected e => EvAsyncReject c e
                     end]
                (mkQueue (executionQueue q) (executionQueueRunning q)
                         (inFlight q) (settledCalls q) (submitted q) (world q)
                         (stalled q) rest))
      else None
  | [] => None
  end.

(** What can happen next, seen from the event loop. *)
Inductive Input : Type :=
| Submit (op : Operation)
| EngineSettles (c : nat) (r : Settled string)
| LoopResumes (c : nat)
| SetParseErrorHandler (h : ParseErrorFunction)
| HookThrows (c : nat) (e : JsValue)
| AsyncSettles (c : nat).

Definition step (i : Input) (q : QueueState) : option QueueState :=
  match i with
  | Submit op => Some (submit op q)
  | EngineSettles c r => engineSettles c r q
  | LoopResumes c => loopResumes c q
  | SetParseErrorHandler h =>
      Some (mkQueue (executionQueue q) (executionQueueRunning q) (inFlight q)
                    (settledCalls q) (submitted q)
                    (snd (setParseErrorHandler h (world q)))
                    (stalled q) (followUps q))
  | HookThrows c e => hookThrows c e q
  | AsyncSettles c => asyncSettles c q
  end.

Fixpoint exec (ins : list Input) (q : QueueState) : option QueueState :=
  match ins with
  | [] => Some q
  | i :: rest =>
      match step i q with
      | Some q' => exec rest q'
      | None => None
      end
  end.

(** The state at start-up: nothing queued, nothing running, nothing done. *)
Definition initialQueue (d : Document) : QueueState :=
  mkQueue [] false [] [] 0 (mkWorld d None []) [] [].

(** The engine calls a trace holds, in the order they were made. *)
Fixpoint engineCalls (t : list Event) : list Unit :=
  match t with
  | [] => []
  | EvEngineCall u :: t' => u :: engineCalls t'
  | _ :: t' => engineCalls t'
  end.

(** Letting the queue run dry: resume the loop where a unit has settled,
    run the follow-ups that are queued, then settle what is in flight,
    resume the loop, and so on through the pending units, the engine
    answering caller [c] with [answer c] and the hook, where it is called,
    returning. *)
Definition settleAndResume (answer : nat -> Settled string) (u : Unit)
  : list Input :=
  [EngineSettles (caller u) (answer (caller u)); LoopResumes (caller u)]
    ++ if holdsAsyncPromise (operation u) then [AsyncSettles (caller u)]
       else [].

Definition drain (answer : nat -> Settled string) (q : QueueState)
  : list Input :=
  map (fun p => LoopResumes (caller (fst p))) (settledCalls q)
    ++ map (fun a => AsyncSettles (fst a)) (followUps q)
    ++ flat_map (settleAndResume answer) (inFlight q)
    ++ flat_map (settleAndResume answer) (executionQueue q).

(* ===================================================================== *)
(** * Sample inputs *)
(* ===================================================================== *)

Definition sampleDocument : Document :=
  fun r =>
    match r with
    | 0 => mkElement "d0" None "graph TD; A-->B"
    | 1 => mkElement "d1" None "not a diagram"
    | 2 => mkElement "d2" None "graph LR; C-->D"
    | _ => mkElement "other" (Some "true") "<svg/>"
    end.

(** An engine that rejects the text of element 1 with a structured
    failure and renders everything else. *)
Definition sampleCollaborators : Collaborators :=
  {| getConfig := mkConfig None (Some true) None;
     initIdGenerator := fun _ _ k => string_of_nat k;
     cleanText := fun s => s;
     detectInit := fun _ => None;
     querySelectorAll := fun _ _ => [0; 1; 2];
     mermaidAPI_render := fun _ id txt _ =>
       if String.eqb txt "not a diagram"
       then Rejected (VDetailed (mkDetailedError "bad syntax" "X1" None None))
       else Fulfilled (mkRenderResult ("<svg id=" ++ id ++ "/>")%string None) |}.

Definition sampleWorld : World := mkWorld sampleDocument None [].

(* ===================================================================== *)
(** * Reading traces *)
(* ===================================================================== *)

(** An element carries the marker when the test of line 142 succeeds. *)
Definition marked (e : Element) : bool := truthy_attr (data_processed e).

Definition isRenderOf (r : ref) (ev : Event) : bool :=
  match ev with
  | EvRender _ _ x _ => Nat.eqb x r
  | _ => false
  end.

Definition isProducedFor (r : ref) (ev : Event) : bool :=
  match ev with
  | EvRender _ _ x (Produced _) => Nat.eqb x r
  | _ => false
  end.

Definition isWriteTo (r : ref) (ev : Event) : bool :=
  match ev with
  | EvSetAttribute x _ _ => Nat.eqb x r
  | EvSetInnerHTML x _ => Nat.eqb x r
  | _ => false
  end.

(** Engine render calls made for element [r]. *)
Definition renders (r : ref) (t : list Event) : nat :=
  List.length (filter (isRenderOf r) t).

(** Engine render calls for element [r] that produced an artifact. *)
Definition produced (r : ref) (t : list Event) : nat :=
  List.length (filter (isProducedFor r) t).

(** Writes to element [r]. *)
Definition writes (r : ref) (t : list Event) : nat :=
  List.length (filter (isWriteTo r) t).

(** Events that neither call the engine's render nor write to an element. *)
Definition quiet (ev : Event) : bool :=
  match ev with
  | EvRender _ _ _ _ | EvSetAttribute _ _ _ | EvSetInnerHTML _ _ => false
  | _ => true
  end.

(** The failures handed to [handleError], read off its first action, the
    warning that logs the raw failure. *)
Fixpoint caught (t : list Event) : list JsValue :=
  match t with
  | [] => []
  | EvLog Warn [AVal e] :: t' => e :: caught t'
  | _ :: t' => caught t'
  end.

(** What [handleError] adds to the collection for a failure: one detailed
    error for the two recognised shapes, nothing otherwise. *)
Definition normalize (e : JsValue) : list DetailedError :=
  match e with
  | VDetailed d => [mkDetailedError (str d) (hash d) (Some (str d)) (Some e)]
  | VError name msg => [mkDetailedError msg name (Some msg) (Some e)]
  | VOther _ => []
  end.

(** The hook calls [handleError] makes for a failure. *)
Definition hookCalls (h : option ParseErrorFunction) (e : JsValue) : list Event :=
  match h with
  | None => []
  | Some f =>
      match e with
      | VDetailed d => [EvParseError f (AStr (str d)) (Some (hash d))]
      | _ => [EvParseError f (AVal e) None]
      end
  end.

(** The options carry an element source: a node list, or a selector that
    is not the empty string. *)
Definition resolvable (o : RunOptions) : bool :=
  match nodes o with
  | Some _ => true
  | None =>
      match querySelector o with
      | Some q => truthy_string q
      | None => false
      end
  end.

Definition fatalError : JsValue :=
  VError "Error" "Nodes and querySelector are both undefined".

(** One visit of element [x] by the loop body, as seen from outside: the
    element already carried the marker and nothing but log lines happened;
    or it was marked, its render failed and its content stayed; or it was
    marked, its render produced an artifact and the artifact became its
    content. *)
Inductive Visit (x : ref) (w w' : World) : Prop :=
| VisitSkip (t : list Event) :
    marked (dom w x) = true ->
    forallb quiet t = true ->
    trace w' = trace w ++ t ->
    (forall y, dom w' y = dom w y) ->
    Visit x w w'
| VisitFailed (pre mid post : list Event) (id txt : string) (e : JsValue) :
    marked (dom w x) = false ->
    forallb quiet pre = true -> forallb quiet mid = true ->
    forallb quiet post = true ->
    trace w' = trace w ++ pre ++ EvSetAttribute x "data-processed" "true"
                 :: mid ++ EvRender id txt x (Failed e) :: post ->
    (forall y, dom w' y =
               if Nat.eqb y x
               then mkElement (el_id (dom w x)) (Some "true") (innerHTML (dom w x))
               else dom w y) ->
    Visit x w w'
| VisitProduced (pre mid post : list Event) (id txt a : string) :
    marked (dom w x) = false ->
    forallb quiet pre = true -> forallb quiet mid = true ->
    forallb quiet post = true ->
    trace w' = trace w ++ pre ++ EvSetAttribute x "data-processed" "true"
                 :: mid ++ EvRender id txt x (Produced a)
                 :: EvSetInnerHTML x a :: post ->
    (forall y, dom w' y =
               if Nat.eqb y x
               then mkElement (el_id (dom w x)) (Some "true") a
               else dom w y) ->
    Visit x w w'.

(* ===================================================================== *)
(** * Relations between the world before and after *)
(* ===================================================================== *)

(** Element [r] is rendered at most once, not at all when it carries the
    marker, and carries the marker once rendered. *)
Definition Once (r : ref) (w w' : World) : Prop :=
  exists t,
    trace w' = trace w ++ t
    /\ renders r t <= 1
    /\ (marked (dom w r) = true ->
        renders r t = 0 /\ writes r t = 0 /\ dom w' r = dom w r)
    /\ (1 <= renders r t -> marked (dom w' r) = true).

(** What may change of element [r]. *)
Definition Frame (r : ref) (w w' : World) : Prop :=
  exists t,
    trace w' = trace w ++ t
    /\ el_id (dom w' r) = el_id (dom w r)
    /\ (data_processed (dom w' r) = data_processed (dom w r)
        \/ data_processed (dom w' r) = Some "true")
    /\ (produced r t = 0 -> innerHTML (dom w' r) = innerHTML (dom w r))
    /\ (forall a, In (EvSetInnerHTML r a) t ->
                  exists id txt, In (EvRender id txt r (Produced a)) t).

(** The marker of an element is set before the engine is asked to render
    it. *)
Definition MarkFirst (w w' : World) : Prop :=
  exists t,
    trace w' = trace w ++ t
    /\ forall pre id txt r o post,
        t = pre ++ EvRender id txt r o :: post ->
        In (EvSetAttribute r "data-processed" "true") pre.

(** A computation keeps a relation when the world it leaves is related to
    the world it started from. *)
Definition Keeps (R : World -> World -> Prop) {A : Type} (m : M A) : Prop :=
  forall w, R w (snd (m w)).

Definition isRender (ev : Event) : bool :=
  match ev with
  | EvRender _ _ _ _ => true
  | _ => false
  end.

(* ===================================================================== *)
(** * Further notions used in the statements *)
(* ===================================================================== *)

(** The first debug line of a pass (line 114). *)
Definition callbackLine (o : RunOptions) : Event :=
  EvLog Debug [AStr ((match postRenderCallback o with
                      | None => "No "
                      | Some _ => EmptyString
                      end) ++ "Callback function found")%string].

(** What the catch block of [run] does with a failure [e] (lines 94-103):
    the events it adds. *)
Definition wrapperEvents (suppress : bool) (h : option ParseErrorFunction)
           (e : JsValue) : list Event :=
  match asDetailedError e with
  | Some d => [EvLog Error [AStr (str d)]]
  | None => []
  end
  ++ match h with
     | Some f => [EvParseError f (AVal e) None]
     | None => []
     end
  ++ if suppress then []
     else [EvLog Error [AStr "Use the suppressErrors option to suppress these errors"]].

(** The options argument with its default applied (lines 87-89). *)
Definition optionsOrDefault (options : option RunOptions) : RunOptions :=
  match options with
  | Some o => o
  | None => defaultRunOptions
  end.

(** A second engine for the examples: it rejects every text with a value
    that is neither a detailed error nor an [Error]. *)
Definition rawFailureCollaborators : Collaborators :=
  {| getConfig := mkConfig (Some true) (Some true) None;
     initIdGenerator := fun _ _ k => string_of_nat k;
     cleanText := fun s => s;
     detectInit := fun _ => None;
     querySelectorAll := fun _ _ => [0; 1; 2];
     mermaidAPI_render := fun _ _ _ _ => Rejected (VOther "out of memory") |}.


(** The invariant of the queue: the engine calls made so far followed by
    the pending units are the submissions in order; a run of the loop is
    suspended on exactly one unit while the flag is set and on none when it
    is clear; and nothing is pending when the flag is clear. *)
Definition QueueInv (q : QueueState) : Prop :=
  map caller (engineCalls (trace (world q))) ++ map caller (executionQueue q)
  = seq 0 (submitted q)
  /\ List.length (inFlight q) + List.length (settledCalls q)
     = (if executionQueueRunning q then 1 else 0)
  /\ (executionQueueRunning q = false -> executionQueue q = []).

(** The line the loop logs when it catches a failed unit (line 297). *)
Definition caughtLine (r : Settled string) : list Event :=
  match r with
  | Fulfilled _ => []
  | Rejected e => [EvLog Error [AStr "Error executing queue"; AVal e]]
  end.

(** Two submissions, then the first unit's engine call settles and the
    loop resumes. *)
Definition sampleInputs : list Input :=
  [Submit (OpParse "graph TD; A-->B"); Submit (OpRender "d1" "graph LR; C-->D");
   EngineSettles 0 (Fulfilled "true"); LoopResumes 0].

(** The ids handed to the engine's render, in call order. *)
Fixpoint renderIds (t : list Event) : list string :=
  match t with
  | [] => []
  | EvRender id _ _ _ :: t' => id :: renderIds t'
  | _ :: t' => renderIds t'
  end.

(** The ids a pass hands out when it renders [n] elements (lines 132, 147). *)
Definition passIds {C : Collaborators} (n : nat) : list string :=
  map (fun k => ("mermaid-" ++ initIdGenerator (deterministicIds getConfig)
                                 (deterministicIDSeed getConfig) k)%string)
      (seq 0 n).

(** Element [r] is rendered at most once, and the artifact of a render of
    [r] that succeeded is the content of [r] afterwards. *)
Definition Shown (r : ref) (w w' : World) : Prop :=
  Once r w w'
  /\ exists t,
      trace w' = trace w ++ t
      /\ forall id txt a,
          In (EvRender id txt r (Produced a)) t -> innerHTML (dom w' r) = a.

(* ===================================================================== *)
(** * The engine calls and the hook calls of a pass *)
(* ===================================================================== *)

(** The calls of the engine's render a trace holds, in order: the id, the
    text and the element of each. *)
Fixpoint renderCalls (t : list Event) : list (string * string * ref) :=
  match t with
  | [] => []
  | EvRender id txt element _ :: t' => (id, txt, element) :: renderCalls t'
  | _ :: t' => renderCalls t'
  end.

(** The elements a loop over [l] renders, in order, when [isMarked] tells
    which elements carry the marker at the start: an element is rendered at
    its first occurrence, unless it carries the marker. *)
Fixpoint renderPlan (isMarked : ref -> bool) (l : list ref) : list ref :=
  match l with
  | [] => []
  | x :: l' =>
      if isMarked x then renderPlan isMarked l'
      else x :: renderPlan (fun r => Nat.eqb r x || isMarked r) l'
  end.

(** The engine calls for the elements [xs], read in the document [d], the
    first of them taking the [k]-th id of the generator [g]. *)
Fixpoint plannedCalls {C : Collaborators} (g : nat -> string) (d : Document)
         (k : nat) (xs : list ref) : list (string * string * ref) :=
  match xs with
  | [] => []
  | x :: xs' =>
      (("mermaid-" ++ g k)%string, cleanText (innerHTML (d x)), x)
        :: plannedCalls g d (S k) xs'
  end.

(** The calls of the [parseError] hook a trace holds, in order. *)
Definition isHookCall (ev : Event) : bool :=
  match ev with
  | EvParseError _ _ _ => true
  | _ => false
  end.

Definition hookEvents (t : list Event) : list Event := filter isHookCall t.

(** The id generator of a pass (line 132). *)
Definition passGenerator {C : Collaborators} : nat -> string :=
  initIdGenerator (deterministicIds getConfig) (deterministicIDSeed getConfig).

(* ===================================================================== *)
(** * The other entry points of the page (mermaid.ts, lines 186-257) *)
(* ===================================================================== *)

(** The [nodes] argument of [init]: a selector, one element, or a node
    list. *)
Inductive InitNodes : Type :=
| NodesSelector (selector : string)
| NodesElement (element : ref)
| NodesList (l : list ref).


Section Page.
Context {C : Collaborators}.

(** [mermaidAPI.initialize], which lives in another file: what the
    collaborators are once the configuration has been handed over. *)
Variable mermaidAPI_initialize : MermaidConfig -> Collaborators.

(** [initialize] (lines 186-188). *)
Definition initialize (config : MermaidConfig) : Collaborators :=
  mermaidAPI_initialize config.

(** Lines 213-222 of [init]: the options handed to [run]. *)
Definition initRunOptions (nodes_ : option InitNodes)
           (callback : option (string -> option JsValue)) : RunOptions :=
  let runOptions := mkRunOptions (Some ".mermaid") None callback None in
  match nodes_ with
  | Some (NodesSelector s) =>
      mkRunOptions (Some s) (nodes runOptions)
                   (postRenderCallback runOptions) (suppressErrors runOptions)
  | Some (NodesElement element) =>
      mkRunOptions (querySelector runOptions) (Some [element])
                   (postRenderCallback runOptions) (suppressErrors runOptions)
  | Some (NodesList l) =>
      mkRunOptions (querySelector runOptions) (Some l)
                   (postRenderCallback runOptions) (suppressErrors runOptions)
  | None => runOptions
  end.

(** [init] (lines 204-224). *)
Definition init (config : option MermaidConfig) (nodes_ : option InitNodes)
           (callback : option (string -> option JsValue)) : M unit :=
  log Warn [AStr "mermaid.init is deprecated. Please use run instead."] ;;
  let C' := match config with
            | Some c => initialize c
            | None => C
            end in
  @run C' (Some (initRunOptions nodes_ callback)).


End Page.

(* ===================================================================== *)
(** * What the callers of the queue observe *)
(* ===================================================================== *)

(** The schedule of the queue as a trace shows it: an engine call made for
    a caller's unit, and the settling, by [resolve] or [reject], of the
    promise made for the caller (lines 312, 338) with a value or a
    failure. *)
Inductive Mark : Type :=
| Started (c : nat)
| Done (c : nat) (r : Settled string).

Fixpoint schedule (t : list Event) : list Mark :=
  match t with
  | [] => []
  | EvEngineCall u :: t' => Started (caller u) :: schedule t'
  | EvResolve c v :: t' => Done c (Fulfilled v) :: schedule t'
  | EvReject c e :: t' => Done c (Rejected e) :: schedule t'
  | _ :: t' => schedule t'
  end.

(** The answers of the engine, among the inputs, whose handlers ran to the
    end, in order. *)
Fixpoint engineAnswers (ins : list Input) : list (nat * Settled string) :=
  match ins with
  | [] => []
  | EngineSettles c r :: ins' => (c, r) :: engineAnswers ins'
  | _ :: ins' => engineAnswers ins'
  end.

(** A schedule in which each unit is started and the promise made for its
    caller settled before the next unit is started. *)
Definition oneByOne (answers : list (nat * Settled string)) : list Mark :=
  flat_map (fun a => [Started (fst a); Done (fst a) (snd a)]) answers.

(** The schedule of a queue state, given the answers so far. *)
Definition ScheduleInv (answers : list (nat * Settled string)) (q : QueueState) : Prop :=
  schedule (trace (world q))
  = oneByOne answers ++ map (fun u => Started (caller u)) (inFlight q).

(** The callers whose unit a schedule starts. *)
Fixpoint startedCallers (m : list Mark) : list nat :=
  match m with
  | [] => []
  | Started c :: m' => c :: startedCallers m'
  | Done _ _ :: m' => startedCallers m'
  end.

(** The promises of the async function [parse] that a trace shows settled,
    in order, each with its caller and its outcome. *)
Fixpoint asyncSettled (t : list Event) : list (nat * Settled string) :=
  match t with
  | [] => []
  | EvAsyncResolve c v :: t' => (c, Fulfilled v) :: asyncSettled t'
  | EvAsyncReject c e :: t' => (c, Rejected e) :: asyncSettled t'
  | _ :: t' => asyncSettled t'
  end.

(** The operations submitted by the inputs, in order: the [c]-th is the
    operation of caller [c]. *)
Fixpoint operations (ins : list Input) : list Operation :=
  match ins with
  | [] => []
  | Submit op :: ins' => op :: operations ins'
  | _ :: ins' => operations ins'
  end.

(** Caller [c] called [parse], and so holds the promise of an async
    function. *)
Definition asyncCaller (ops : list Operation) (c : nat) : bool :=
  match nth_error ops c with
  | Some op => holdsAsyncPromise op
  | None => false
  end.

(** The units made from the operations [ops], the first of them for caller
    [k]. *)
Fixpoint unitsFrom (k : nat) (ops : list Operation) : list Unit :=
  match ops with
  | [] => []
  | op :: ops' => mkUnit k op :: unitsFrom (S k) ops'
  end.

(** The units called so far followed by the pending ones are the units of
    the operations submitted, and a unit in flight has been called. *)
Definition UnitsInv (ops : list Operation) (q : QueueState) : Prop :=
  engineCalls (trace (world q)) ++ executionQueue q = unitsFrom 0 ops
  /\ submitted q = List.length ops
  /\ forall u, In u (inFlight q) -> In u (engineCalls (trace (world q))).

(** The promises of [parse] settled so far, followed by the follow-ups
    that are queued, are the answers given to units of [parse], in
    order. *)
Definition AsyncInv (ops : list Operation)
           (answers : list (nat * Settled string)) (q : QueueState) : Prop :=
  asyncSettled (trace (world q)) ++ followUps q
  = filter (fun a => asyncCaller ops (fst a)) answers
  /\ Forall (fun a => fst a < List.length ops) answers.

(** The events of the follow-ups [fu], run in order. *)
Definition asyncEvents (fu : list (nat * Settled string)) : list Event :=
  map (fun a => match snd a with
                | Fulfilled v => EvAsyncResolve (fst a) v
                | Rejected e => EvAsyncReject (fst a) e
                end) fu.

(** The queue is stuck on a unit whose rejection handler the hook cut
    short: the flag is set, and the loop waits for that unit alone. *)
Definition Stuck (q : QueueState) : Prop :=
  executionQueueRunning q = true /\ settledCalls q = []
  /\ exists u, inFlight q = [u] /\ stalled q = [u].

(** The handler in [mermaid.parseError] after the inputs [ins], when it
    was [h] before. *)
Fixpoint handlerAfter (h : option ParseErrorFunction) (ins : list Input)
  : option ParseErrorFunction :=
  match ins with
  | [] => h
  | SetParseErrorHandler h' :: rest => handlerAfter (Some h') rest
  | _ :: rest => handlerAfter h rest
  end.

(** The hook calls the inputs [ins] call for, the handler being [h] at
    first: one for each engine answer that is a failure, made on the
    handler installed when the answer comes, with the failure alone. *)
Fixpoint queueHookCalls (h : option ParseErrorFunction) (ins : list Input)
  : list Event :=
  match ins with
  | [] => []
  | SetParseErrorHandler h' :: rest => queueHookCalls (Some h') rest
  | EngineSettles _ (Rejected e) :: rest
  | HookThrows _ e :: rest =>
      match h with
      | Some f => [EvParseError f (AVal e) None]
      | None => []
      end ++ queueHookCalls h rest
  | _ :: rest => queueHookCalls h rest
  end.

(* ===================================================================== *)
(** * The loop body, case by case *)
(* ===================================================================== *)

Unset Implicit Arguments.
Local Arguments String.append : simpl never.

Lemma handleError_eq (e : JsValue) (errs : list DetailedError)
      (h : option ParseErrorFunction) (w : World) :
  handleError e errs h w =
  (Normal (errs ++ normalize e),
   mkWorld (dom w) (parseError w)
           (trace w ++ EvLog Warn [AVal e] :: hookCalls h e)).
Proof.
  destruct e as [d | name msg | v], h as [f |];
    unfold handleError, log, callParseError, emit, bind, ret; simpl;
    rewrite <- ?app_assoc; simpl; rewrite ?app_nil_r; reflexivity.
Qed.

Lemma hookCalls_quiet (h : option ParseErrorFunction) (e : JsValue) :
  forallb quiet (hookCalls h e) = true.
Proof. destruct h, e; reflexivity. Qed.

Ltac norm_trace := rewrite <- ?app_assoc; cbn [app].

Ltac quiet_goal :=
  cbn [forallb quiet andb]; first [reflexivity | apply hookCalls_quiet].

Ltac dom_goal :=
  let y := fresh "y" in
  intros y; cbn [dom el_id data_processed innerHTML];
  destruct (Nat.eqb y _) eqn:?; rewrite ?Nat.eqb_refl; reflexivity.

Section LoopBody.
Context {C : Collaborators}.
Variables (o : RunOptions) (idGenerator : nat -> string).

Lemma processElement_visit (x : ref) (s : LoopState) (w : World) :
  (exists s', fst (processElement o idGenerator x s w) = Normal s')
  /\ parseError (snd (processElement o idGenerator x s w)) = parseError w
  /\ Visit x w (snd (processElement o idGenerator x s w)).
Proof.
  unfold processElement, awaitRender, awaitCallback, callBind, setAttribute, setInnerHTML,
    modifyElement, getElement, getDocument, getParseError, log, emit, try_catch, bind, ret, throw.
  cbn [fst snd dom trace parseError].
  destruct (truthy_attr (data_processed (dom w x))) eqn:Hm.
  - cbn. split; [eauto|]. split; [reflexivity|].
    eapply VisitSkip with (t := [EvLog Info _]); [exact Hm | reflexivity | reflexivity | reflexivity].
  - cbn [fst snd dom trace parseError]. 
    unfold update. cbn [dom]. rewrite Nat.eqb_refl. cbn [innerHTML el_id data_processed].
    destruct (detectInit _) as [ini|]; cbn [fst snd dom trace parseError];
    (destruct (mermaidAPI_render _ _ _ _) as [rr|e]; cbn [fst snd dom trace parseError];
     [ destruct (postRenderCallback o) as [cb|]; cbn [fst snd dom trace parseError];
       [ destruct (cb _) as [e|]; cbn [fst snd dom trace parseError] | ];
       try (destruct (bindFunctions rr) as [bf|]; cbn [fst snd dom trace parseError];
            [ destruct (bf _) as [e'|]; cbn [fst snd dom trace parseError] | ])
     | ]);
    rewrite ?handleError_eq; cbn [fst snd dom trace parseError];
    (split; [eauto|]); (split; [reflexivity|]); norm_trace.
    all: first
      [ eapply VisitFailed with (pre := [EvLog Info _]) (mid := []);
          [exact Hm | reflexivity | reflexivity | | cbn [trace app]; reflexivity | dom_goal ]
      | eapply VisitFailed with (pre := [EvLog Info _]) (mid := [EvLog Debug _]);
          [exact Hm | reflexivity | reflexivity | | cbn [trace app]; reflexivity | dom_goal ]
      | eapply VisitProduced with (pre := [EvLog Info _]) (mid := []);
          [exact Hm | reflexivity | reflexivity | | cbn [trace app]; reflexivity | dom_goal ]
      | eapply VisitProduced with (pre := [EvLog Info _]) (mid := [EvLog Debug _]);
          [exact Hm | reflexivity | reflexivity | | cbn [trace app]; reflexivity | dom_goal ] ].
    all: quiet_goal.
Qed.
End LoopBody.

(* ===================================================================== *)
(** * Counting in traces *)
(* ===================================================================== *)

Lemma renders_app (r : ref) (t1 t2 : list Event) :
  renders r (t1 ++ t2) = renders r t1 + renders r t2.
Proof. unfold renders. now rewrite filter_app, length_app. Qed.

Lemma produced_app (r : ref) (t1 t2 : list Event) :
  produced r (t1 ++ t2) = produced r t1 + produced r t2.
Proof. unfold produced. now rewrite filter_app, length_app. Qed.

Lemma writes_app (r : ref) (t1 t2 : list Event) :
  writes r (t1 ++ t2) = writes r t1 + writes r t2.
Proof. unfold writes. now rewrite filter_app, length_app. Qed.

Lemma quiet_filter (p : Event -> bool) (t : list Event) :
  (forall ev, quiet ev = true -> p ev = false) ->
  forallb quiet t = true -> filter p t = [].
Proof.
  intros Hp. induction t as [| ev t IH]; simpl; intros H; [reflexivity|].
  apply andb_true_iff in H as [Hev Ht].
  rewrite (Hp ev Hev). auto.
Qed.

Lemma quiet_renders (r : ref) (t : list Event) :
  forallb quiet t = true -> renders r t = 0.
Proof.
  intros H. unfold renders. rewrite quiet_filter; auto.
  intros [] Hq; simpl in *; congruence.
Qed.

Lemma quiet_produced (r : ref) (t : list Event) :
  forallb quiet t = true -> produced r t = 0.
Proof.
  intros H. unfold produced. rewrite quiet_filter; auto.
  intros [] Hq; simpl in *; congruence.
Qed.

Lemma quiet_writes (r : ref) (t : list Event) :
  forallb quiet t = true -> writes r t = 0.
Proof.
  intros H. unfold writes. rewrite quiet_filter; auto.
  intros [] Hq; simpl in *; congruence.
Qed.

Lemma quiet_In (t : list Event) (ev : Event) :
  forallb quiet t = true -> In ev t -> quiet ev = true.
Proof. intros H Hin. rewrite forallb_forall in H. auto. Qed.

Lemma renders_cons (r : ref) (ev : Event) (t : list Event) :
  renders r (ev :: t) = (if isRenderOf r ev then 1 else 0) + renders r t.
Proof. unfold renders. simpl. destruct (isRenderOf r ev); reflexivity. Qed.

Lemma produced_cons (r : ref) (ev : Event) (t : list Event) :
  produced r (ev :: t) = (if isProducedFor r ev then 1 else 0) + produced r t.
Proof. unfold produced. simpl. destruct (isProducedFor r ev); reflexivity. Qed.

Lemma writes_cons (r : ref) (ev : Event) (t : list Event) :
  writes r (ev :: t) = (if isWriteTo r ev then 1 else 0) + writes r t.
Proof. unfold writes. simpl. destruct (isWriteTo r ev); reflexivity. Qed.

Lemma produced_le_renders (r : ref) (t : list Event) :
  produced r t <= renders r t.
Proof.
  induction t as [| ev t IH]; [reflexivity|].
  rewrite produced_cons, renders_cons.
  destruct ev; simpl; try lia.
  all: destruct o; simpl; try destruct (Nat.eqb element r); lia.
Qed.

Lemma failed_render_counts (r : ref) (t : list Event) (id txt : string) (e : JsValue) :
  In (EvRender id txt r (Failed e)) t -> produced r t < renders r t.
Proof.
  induction t as [| ev t IH]; simpl; [tauto|].
  intros [-> | Hin]; rewrite produced_cons, renders_cons.
  - simpl. rewrite Nat.eqb_refl. pose proof (produced_le_renders r t). lia.
  - specialize (IH Hin).
    destruct ev; simpl; try lia.
    all: destruct o; simpl; try destruct (Nat.eqb element r); lia.
Qed.

Lemma Once_refl (r : ref) (w : World) : Once r w w.
Proof.
  exists []. rewrite app_nil_r. unfold renders, writes. simpl.
  repeat split; auto. intros H. inversion H.
Qed.

Lemma Once_trans (r : ref) (w1 w2 w3 : World) :
  Once r w1 w2 -> Once r w2 w3 -> Once r w1 w3.
Proof.
  intros (t1 & E1 & L1 & M1 & N1) (t2 & E2 & L2 & M2 & N2).
  exists (t1 ++ t2). rewrite E2, E1, app_assoc, renders_app, writes_app.
  split; [reflexivity|].
  assert (Hk : 1 <= renders r t1 -> renders r t2 = 0 /\ dom w3 r = dom w2 r).
  { intros H. specialize (N1 H). destruct (M2 N1) as (? & ? & ?). auto. }
  split; [|split].
  - assert (renders r t1 = 0 \/ renders r t2 = 0) as [H | H]
      by (destruct (renders r t1); [auto | right; apply Hk; lia]); lia.
  - intros Hm. destruct (M1 Hm) as (R1 & W1 & D1).
    rewrite <- D1 in Hm. destruct (M2 Hm) as (R2 & W2 & D2).
    rewrite R1, R2, W1, W2, D2, D1. auto.
  - intros H. destruct (renders r t1) as [|n] eqn:Hr.
    + apply N2. simpl in H. exact H.
    + destruct Hk as [_ D]; [lia|]. rewrite D. apply N1. lia.
Qed.

Lemma Frame_refl (r : ref) (w : World) : Frame r w w.
Proof.
  exists []. rewrite app_nil_r. repeat split; simpl; auto. tauto.
Qed.

Lemma Frame_trans (r : ref) (w1 w2 w3 : World) :
  Frame r w1 w2 -> Frame r w2 w3 -> Frame r w1 w3.
Proof.
  intros (t1 & E1 & I1 & P1 & H1 & S1) (t2 & E2 & I2 & P2 & H2 & S2).
  exists (t1 ++ t2). rewrite E2, E1, app_assoc, produced_app.
  split; [reflexivity|]. split; [congruence|]. split; [|split].
  - destruct P2 as [P2 | P2]; [rewrite P2; exact P1 | right; exact P2].
  - intros H. rewrite H2, H1; [reflexivity | lia | lia].
  - intros a Hin. apply in_app_or in Hin as [Hin | Hin].
    + destruct (S1 a Hin) as (id & txt & Hr). exists id, txt.
      apply in_or_app. auto.
    + destruct (S2 a Hin) as (id & txt & Hr). exists id, txt.
      apply in_or_app. auto.
Qed.

Lemma quiet_not_render (t : list Event) :
  forallb quiet t = true -> forall ev, In ev t -> isRender ev = false.
Proof.
  intros H ev Hin. pose proof (quiet_In t ev H Hin) as Hq.
  destruct ev; simpl in *; congruence.
Qed.

Lemma single_render_split (l1 l2 pre post : list Event) (a b : Event) :
  l1 ++ a :: l2 = pre ++ b :: post ->
  (forall ev, In ev l1 -> isRender ev = false) ->
  (forall ev, In ev l2 -> isRender ev = false) ->
  isRender b = true ->
  pre = l1 /\ b = a.
Proof.
  revert pre. induction l1 as [| x l1 IH]; intros [| p pre] E N1 N2 Hb;
    simpl in E; inversion E; subst.
  - auto.
  - rewrite N2 in Hb; [discriminate | apply in_or_app; simpl; auto].
  - rewrite (N1 b) in Hb; [discriminate | simpl; auto].
  - destruct (IH pre H1) as [-> ->]; auto.
    intros ev Hin. apply N1. simpl. auto.
Qed.

Lemma MarkFirst_trans (w1 w2 w3 : World) :
  MarkFirst w1 w2 -> MarkFirst w2 w3 -> MarkFirst w1 w3.
Proof.
  intros (t1 & E1 & H1) (t2 & E2 & H2).
  exists (t1 ++ t2). rewrite E2, E1, app_assoc. split; [reflexivity|].
  intros pre id txt r o post E.
  apply app_eq_app in E as [l [[Ea Eb] | [Ea Eb]]].
  - destruct l as [| ev l]; simpl in Eb.
    + destruct (H2 [] id txt r o post (eq_sym Eb)).
    + inversion Eb; subst. eapply H1. reflexivity.
  - subst pre. apply in_or_app. right. eapply H2. exact Eb.
Qed.

Lemma quiet_no_render_split (t pre post : list Event) (id txt : string)
      (r : ref) (o : Outcome) :
  forallb quiet t = true -> t = pre ++ EvRender id txt r o :: post -> False.
Proof.
  intros H E. subst t.
  pose proof (quiet_In _ (EvRender id txt r o) H) as Hq.
  simpl in Hq. discriminate Hq. apply in_or_app. simpl. auto.
Qed.

(** ** A step that only logs or calls hooks *)

Lemma Once_quiet (r : ref) (w w' : World) (t : list Event) :
  forallb quiet t = true -> trace w' = trace w ++ t ->
  (forall y, dom w' y = dom w y) -> Once r w w'.
Proof.
  intros Hq Ht Hd. exists t. rewrite (quiet_renders r t Hq), (quiet_writes r t Hq).
  repeat split; auto. intros H. inversion H.
Qed.

Lemma Frame_quiet (r : ref) (w w' : World) (t : list Event) :
  forallb quiet t = true -> trace w' = trace w ++ t ->
  (forall y, dom w' y = dom w y) -> Frame r w w'.
Proof.
  intros Hq Ht Hd. exists t. rewrite !Hd. repeat split; auto.
  intros a Hin. pose proof (quiet_In t _ Hq Hin). discriminate.
Qed.

Lemma MarkFirst_quiet (w w' : World) (t : list Event) :
  forallb quiet t = true -> trace w' = trace w ++ t ->
  (forall y, dom w' y = dom w y) -> MarkFirst w w'.
Proof.
  intros Hq Ht Hd. exists t. split; [exact Ht|].
  intros pre id txt r o post E. exact (False_ind _ (quiet_no_render_split _ _ _ _ _ _ _ Hq E)).
Qed.

(** ** One visit *)

Ltac visit_dom Hd r x :=
  pose proof (Hd r) as Hdr; pose proof (Hd x) as Hdx;
  rewrite Nat.eqb_refl in Hdx;
  destruct (Nat.eqb r x) eqn:Erx;
  [ apply Nat.eqb_eq in Erx; subst r
  | assert (Exr : Nat.eqb x r = false)
      by (rewrite Nat.eqb_sym; exact Erx) ].

Lemma Once_visit (r x : ref) (w w' : World) : Visit x w w' -> Once r w w'.
Proof.
  intros [t Hm Hq Ht Hd | pre mid post id txt e Hm Hpre Hmid Hpost Ht Hd
         | pre mid post id txt a Hm Hpre Hmid Hpost Ht Hd].
  - exact (Once_quiet r w w' t Hq Ht Hd).
  - eexists. split; [exact Ht|]. visit_dom Hd r x.
    + rewrite renders_app, renders_cons, renders_app, renders_cons,
        !quiet_renders by assumption.
      simpl. rewrite Nat.eqb_refl. split; [lia|]. split.
      * intros H. congruence.
      * intros _. rewrite Hdx. reflexivity.
    + rewrite renders_app, renders_cons, renders_app, renders_cons,
        writes_app, writes_cons, writes_app, writes_cons,
        !quiet_renders, !quiet_writes by assumption.
      simpl. rewrite Exr. simpl. split; [lia|]. split; [auto|]. intros H. lia.
  - eexists. split; [exact Ht|]. visit_dom Hd r x.
    + rewrite renders_app, renders_cons, renders_app, !renders_cons,
        !quiet_renders by assumption.
      simpl. rewrite Nat.eqb_refl. split; [lia|]. split.
      * intros H. congruence.
      * intros _. rewrite Hdx. reflexivity.
    + rewrite renders_app, renders_cons, renders_app, !renders_cons,
        writes_app, writes_cons, writes_app, !writes_cons,
        !quiet_renders, !quiet_writes by assumption.
      simpl. rewrite Exr. simpl. split; [lia|]. split; [auto|]. intros H. lia.
Qed.

Lemma Frame_visit (r x : ref) (w w' : World) : Visit x w w' -> Frame r w w'.
Proof.
  intros [t Hm Hq Ht Hd | pre mid post id txt e Hm Hpre Hmid Hpost Ht Hd
         | pre mid post id txt a Hm Hpre Hmid Hpost Ht Hd].
  - exact (Frame_quiet r w w' t Hq Ht Hd).
  - eexists. split; [exact Ht|]. visit_dom Hd r x.
    + rewrite Hdx. simpl. repeat split; auto.
      intros a Hin.
      apply in_app_or in Hin as [Hin | [Hin | Hin]]; [| discriminate |].
      * pose proof (quiet_In _ _ Hpre Hin). discriminate.
      * apply in_app_or in Hin as [Hin | [Hin | Hin]]; [| discriminate |].
        -- pose proof (quiet_In _ _ Hmid Hin). discriminate.
        -- pose proof (quiet_In _ _ Hpost Hin). discriminate.
    + rewrite Hdr. repeat split; auto.
      intros a Hin.
      apply in_app_or in Hin as [Hin | [Hin | Hin]]; [| discriminate |].
      * pose proof (quiet_In _ _ Hpre Hin). discriminate.
      * apply in_app_or in Hin as [Hin | [Hin | Hin]]; [| discriminate |].
        -- pose proof (quiet_In _ _ Hmid Hin). discriminate.
        -- pose proof (quiet_In _ _ Hpost Hin). discriminate.
  - eexists. split; [exact Ht|]. visit_dom Hd r x.
    + rewrite Hdx. simpl. split; [reflexivity|]. split; [auto|]. split.
      * rewrite produced_app, produced_cons, produced_app, produced_cons.
        simpl. rewrite Nat.eqb_refl. intros H. lia.
      * intros b Hin.
        apply in_app_or in Hin as [Hin | [Hin | Hin]]; [| discriminate |].
        -- pose proof (quiet_In _ _ Hpre Hin). discriminate.
        -- apply in_app_or in Hin as [Hin | [Hin | [Hin | Hin]]];
             [| discriminate | |].
           ++ pose proof (quiet_In _ _ Hmid Hin). discriminate.
           ++ inversion Hin; subst. exists id, txt.
              apply in_or_app. right. right. apply in_or_app. right. left.
              reflexivity.
           ++ pose proof (quiet_In _ _ Hpost Hin). discriminate.
    + rewrite Hdr. repeat split; auto.
      intros b Hin.
      apply in_app_or in Hin as [Hin | [Hin | Hin]]; [| discriminate |].
      * pose proof (quiet_In _ _ Hpre Hin). discriminate.
      * apply in_app_or in Hin as [Hin | [Hin | [Hin | Hin]]];
          [| discriminate | |].
        -- pose proof (quiet_In _ _ Hmid Hin). discriminate.
        -- inversion Hin; subst. rewrite Nat.eqb_refl in Exr. discriminate.
        -- pose proof (quiet_In _ _ Hpost Hin). discriminate.
Qed.

Lemma no_render_before (pre mid : list Event) (x : ref) :
  forallb quiet pre = true -> forallb quiet mid = true ->
  forall ev, In ev (pre ++ EvSetAttribute x "data-processed" "true" :: mid) ->
             isRender ev = false.
Proof.
  intros Hpre Hmid ev Hin.
  apply in_app_or in Hin as [Hin | [<- | Hin]].
  - exact (quiet_not_render pre Hpre ev Hin).
  - reflexivity.
  - exact (quiet_not_render mid Hmid ev Hin).
Qed.

Lemma MarkFirst_visit (x : ref) (w w' : World) : Visit x w w' -> MarkFirst w w'.
Proof.
  intros [t Hm Hq Ht Hd | pre mid post id txt e Hm Hpre Hmid Hpost Ht Hd
         | pre mid post id txt a Hm Hpre Hmid Hpost Ht Hd].
  - exact (MarkFirst_quiet w w' t Hq Ht Hd).
  - eexists. split; [exact Ht|].
    intros pre' id' txt' r o post' E.
    change (pre ++ EvSetAttribute x "data-processed" "true"
              :: mid ++ EvRender id txt x (Failed e) :: post)
      with (pre ++ (EvSetAttribute x "data-processed" "true" :: mid)
              ++ EvRender id txt x (Failed e) :: post) in E.
    rewrite app_assoc in E.
    apply single_render_split in E as [-> Eb];
      [ | apply no_render_before; assumption
        | apply quiet_not_render; assumption | reflexivity ].
    inversion Eb; subst. apply in_or_app. right. left. reflexivity.
  - eexists. split; [exact Ht|].
    intros pre' id' txt' r o post' E.
    change (pre ++ EvSetAttribute x "data-processed" "true"
              :: mid ++ EvRender id txt x (Produced a) :: EvSetInnerHTML x a :: post)
      with (pre ++ (EvSetAttribute x "data-processed" "true" :: mid)
              ++ EvRender id txt x (Produced a) :: EvSetInnerHTML x a :: post) in E.
    rewrite app_assoc in E.
    apply single_render_split in E as [-> Eb];
      [ | apply no_render_before; assumption
        | | reflexivity ].
    + inversion Eb; subst. apply in_or_app. right. left. reflexivity.
    + intros ev [<- | Hin]; [reflexivity|].
      exact (quiet_not_render post Hpost ev Hin).
Qed.

Lemma Visit_marks (x : ref) (w w' : World) :
  Visit x w w' -> marked (dom w' x) = true.
Proof.
  intros [t Hm Hq Ht Hd | pre mid post id txt e Hm Hpre Hmid Hpost Ht Hd
         | pre mid post id txt a Hm Hpre Hmid Hpost Ht Hd].
  - rewrite Hd. exact Hm.
  - rewrite Hd, Nat.eqb_refl. reflexivity.
  - rewrite Hd, Nat.eqb_refl. reflexivity.
Qed.

(* ===================================================================== *)
(** * Lifting a relation through the loop and the two entry points *)
(* ===================================================================== *)

Section Lift.
Context {C : Collaborators}.
Variable R : World -> World -> Prop.
Hypothesis R_trans : forall w1 w2 w3, R w1 w2 -> R w2 w3 -> R w1 w3.
Hypothesis R_quiet :
  forall w w' t, forallb quiet t = true -> trace w' = trace w ++ t ->
                 (forall y, dom w' y = dom w y) -> R w w'.
Hypothesis R_visit : forall x w w', Visit x w w' -> R w w'.

Lemma R_refl (w : World) : R w w.
Proof. apply (R_quiet w w []); auto using app_nil_r. Qed.

Lemma keeps_ret {A : Type} (a : A) : Keeps R (ret a).
Proof. intros w. apply R_refl. Qed.

Lemma keeps_throw {A : Type} (e : JsValue) : Keeps R (@throw A e).
Proof. intros w. apply R_refl. Qed.

Lemma keeps_bind {A B : Type} (m : M A) (k : A -> M B) :
  Keeps R m -> (forall a, Keeps R (k a)) -> Keeps R (bind m k).
Proof.
  intros Hm Hk w. unfold bind. specialize (Hm w).
  destruct (m w) as [[a | e] w1]; simpl in *; [|exact Hm].
  eapply R_trans; [exact Hm | apply Hk].
Qed.

Lemma keeps_try_catch {A : Type} (m : M A) (h : JsValue -> M A) :
  Keeps R m -> (forall e, Keeps R (h e)) -> Keeps R (try_catch m h).
Proof.
  intros Hm Hh w. unfold try_catch. specialize (Hm w).
  destruct (m w) as [[a | e] w1]; simpl in *; [exact Hm|].
  eapply R_trans; [exact Hm | apply Hh].
Qed.

Lemma keeps_emit (ev : Event) : quiet ev = true -> Keeps R (emit ev).
Proof.
  intros Hq w. apply (R_quiet _ _ [ev]); simpl; auto. now rewrite Hq.
Qed.

Lemma keeps_getDocument : Keeps R getDocument.
Proof. intros w. apply R_refl. Qed.

Lemma keeps_getParseError : Keeps R getParseError.
Proof. intros w. apply R_refl. Qed.

Lemma keeps_forOf {A S : Type} (body : A -> S -> M S) :
  (forall x s, Keeps R (body x s)) -> forall l s, Keeps R (forOf l body s).
Proof.
  intros Hb l. induction l as [| x l IH]; intros s; simpl.
  - apply keeps_ret.
  - apply keeps_bind; auto.
Qed.

Lemma keeps_processElement (o : RunOptions) (g : nat -> string) (x : ref)
      (s : LoopState) :
  Keeps R (processElement o g x s).
Proof. intros w. eapply R_visit, processElement_visit. Qed.

Lemma keeps_nodesToProcess (o : RunOptions) : Keeps R (nodesToProcess o).
Proof.
  unfold nodesToProcess.
  destruct (nodes o); [apply keeps_ret|].
  destruct (querySelector o) as [q|]; [|apply keeps_throw].
  destruct (truthy_string q); [|apply keeps_throw].
  apply keeps_bind; [apply keeps_getDocument | intros; apply keeps_ret].
Qed.

Lemma keeps_runThrowsErrors (options : option RunOptions) :
  Keeps R (runThrowsErrors options).
Proof.
  unfold runThrowsErrors, scan, log, callParseError.
  repeat first
    [ apply keeps_bind; [| intros ]
    | apply keeps_emit; reflexivity
    | apply keeps_nodesToProcess
    | apply keeps_forOf; intros; apply keeps_processElement
    | apply keeps_ret
    | apply keeps_throw
    | match goal with
      | |- Keeps R (match ?x with _ => _ end) => destruct x
      end ].
Qed.

Lemma keeps_run (options : option RunOptions) : Keeps R (run options).
Proof.
  unfold run, log, callParseError.
  apply keeps_try_catch; [apply keeps_runThrowsErrors | intros e].
  repeat first
    [ apply keeps_bind; [| intros ]
    | apply keeps_emit; reflexivity
    | apply keeps_getParseError
    | apply keeps_ret
    | apply keeps_throw
    | match goal with
      | |- Keeps R (match ?x with _ => _ end) => destruct x
      | |- Keeps R (if ?x then _ else _) => destruct x
      end ].
Qed.
End Lift.

Section Passes.
Context {C : Collaborators}.

Lemma run_Once (r : ref) (options : option RunOptions) (w : World) :
  Once r w (snd (run options w)).
Proof.
  apply (keeps_run (Once r)).
  - apply Once_trans.
  - apply Once_quiet.
  - intros x. apply Once_visit.
Qed.

Lemma runThrowsErrors_Once (r : ref) (options : option RunOptions) (w : World) :
  Once r w (snd (runThrowsErrors options w)).
Proof.
  apply (keeps_runThrowsErrors (Once r)).
  - apply Once_trans.
  - apply Once_quiet.
  - intros x. apply Once_visit.
Qed.

Lemma runThrowsErrors_Frame (r : ref) (options : option RunOptions) (w : World) :
  Frame r w (snd (runThrowsErrors options w)).
Proof.
  apply (keeps_runThrowsErrors (Frame r)).
  - apply Frame_trans.
  - apply Frame_quiet.
  - intros x. apply Frame_visit.
Qed.

Lemma run_Frame (r : ref) (options : option RunOptions) (w : World) :
  Frame r w (snd (run options w)).
Proof.
  apply (keeps_run (Frame r)).
  - apply Frame_trans.
  - apply Frame_quiet.
  - intros x. apply Frame_visit.
Qed.

Lemma run_MarkFirst (options : option RunOptions) (w : World) :
  MarkFirst w (snd (run options w)).
Proof.
  apply (keeps_run MarkFirst).
  - apply MarkFirst_trans.
  - apply MarkFirst_quiet.
  - apply MarkFirst_visit.
Qed.
End Passes.

(* ===================================================================== *)
(** * What the pass collects *)
(* ===================================================================== *)

Lemma caught_app (t1 t2 : list Event) :
  caught (t1 ++ t2) = caught t1 ++ caught t2.
Proof.
  induction t1 as [| ev t1 IH]; [reflexivity|].
  destruct ev as [lvl args | | | | | | | | | | | | | |]; simpl; auto.
  destruct lvl; auto.
  destruct args as [| [s | v] [| a args]]; simpl; auto.
  now rewrite IH.
Qed.

Lemma caught_hookCalls (h : option ParseErrorFunction) (e : JsValue) :
  caught (hookCalls h e) = [].
Proof. destruct h, e; reflexivity. Qed.

Section Collecting.
Context {C : Collaborators}.
Variables (o : RunOptions) (idGenerator : nat -> string).

Lemma processElement_collects (x : ref) (s : LoopState) (w : World) :
  exists s' t,
    fst (processElement o idGenerator x s w) = Normal s'
    /\ trace (snd (processElement o idGenerator x s w)) = trace w ++ t
    /\ errors s' = errors s ++ flat_map normalize (caught t).
Proof.
  unfold processElement, awaitRender, awaitCallback, callBind, setAttribute, setInnerHTML,
    modifyElement, getElement, getDocument, getParseError, log, emit, try_catch, bind, ret, throw.
  cbn [fst snd dom trace parseError].
  destruct (truthy_attr (data_processed (dom w x))) eqn:Hm.
  - cbn. exists s. eexists. split; [reflexivity|]. split; [reflexivity|].
    simpl. now rewrite app_nil_r.
  - cbn [fst snd dom trace parseError].
    unfold update. cbn [dom]. rewrite Nat.eqb_refl. cbn [innerHTML el_id data_processed].
    destruct (detectInit _) as [ini|]; cbn [fst snd dom trace parseError];
    (destruct (mermaidAPI_render _ _ _ _) as [rr|e]; cbn [fst snd dom trace parseError];
     [ destruct (postRenderCallback o) as [cb|]; cbn [fst snd dom trace parseError];
       [ destruct (cb _) as [e|]; cbn [fst snd dom trace parseError] | ];
       try (destruct (bindFunctions rr) as [bf|]; cbn [fst snd dom trace parseError];
            [ destruct (bf _) as [e'|]; cbn [fst snd dom trace parseError] | ])
     | ]);
    rewrite ?handleError_eq; cbn [fst snd dom trace parseError];
    eexists; eexists; (split; [reflexivity|]); norm_trace;
    (split; [reflexivity|]);
    cbn [caught flat_map errors]; rewrite ?caught_hookCalls; cbn [flat_map];
    rewrite ?app_nil_r; reflexivity.
Qed.

Lemma forOf_collects (l : list ref) (s : LoopState) (w : World) :
  exists s' t,
    fst (forOf l (processElement o idGenerator) s w) = Normal s'
    /\ trace (snd (forOf l (processElement o idGenerator) s w)) = trace w ++ t
    /\ errors s' = errors s ++ flat_map normalize (caught t).
Proof.
  revert s w. induction l as [| x l IH]; intros s w; simpl.
  - exists s, []. simpl. now rewrite !app_nil_r.
  - unfold bind.
    destruct (processElement_collects x s w) as (s1 & t1 & E1 & T1 & C1).
    destruct (processElement o idGenerator x s w) as [c w1]. simpl in E1, T1. subst c.
    destruct (IH s1 w1) as (s2 & t2 & E2 & T2 & C2).
    exists s2, (t1 ++ t2). split; [exact E2|].
    rewrite T2, T1, C2, C1, caught_app, flat_map_app, !app_assoc. auto.
Qed.
End Collecting.

Section Outcome.
Context {C : Collaborators}.

Lemma runThrowsErrors_unresolvable (o : RunOptions) (w : World) :
  resolvable o = false ->
  runThrowsErrors (Some o) w =
  (Throw fatalError,
   mkWorld (dom w) (parseError w) (trace w ++ [callbackLine o])).
Proof.
  unfold resolvable, runThrowsErrors, nodesToProcess, log, emit, bind, throw, callbackLine.
  destruct (nodes o); [discriminate|].
  destruct (querySelector o) as [q|]; [|reflexivity].
  intros ->. reflexivity.
Qed.

Lemma runThrowsErrors_resolvable (o : RunOptions) (w : World) :
  resolvable o = true ->
  exists t,
    trace (snd (runThrowsErrors (Some o) w)) = trace w ++ t
    /\ fst (runThrowsErrors (Some o) w) =
       match flat_map normalize (caught t) with
       | [] => Normal tt
       | first :: _ => Throw (VDetailed first)
       end.
Proof.
  intros Hr.
  assert (Hn : exists l, forall w0, nodesToProcess o w0 = (Normal (l w0), w0)).
  { unfold resolvable in Hr. unfold nodesToProcess.
    destruct (nodes o) as [ns|]; [exists (fun _ => ns); reflexivity|].
    destruct (querySelector o) as [q|]; [|discriminate]. rewrite Hr.
    exists (fun w0 => querySelectorAll (dom w0) q). reflexivity. }
  destruct Hn as [l Hl].
  unfold runThrowsErrors, scan, log, emit, bind, ret, throw.
  rewrite Hl. cbn [fst snd dom trace parseError].
  destruct (startOnLoad getConfig) as [b|]; cbn [fst snd dom trace parseError];
    match goal with
    | |- context [forOf ?l0 ?body ?s0 ?w0] =>
        destruct (forOf_collects o
                    (initIdGenerator (deterministicIds getConfig)
                                     (deterministicIDSeed getConfig)) l0 s0 w0)
          as (s' & t & E & T & Cl);
        destruct (forOf l0 body s0 w0) as [c w1]
    end;
    cbn [fst snd dom trace parseError errors app] in E, T, Cl; subst c;
    eexists;
    (split;
     [ destruct (errors s'); cbn [snd]; rewrite T; norm_trace; reflexivity
     | cbn [caught app]; rewrite <- Cl; destruct (errors s'); reflexivity ]).
Qed.
End Outcome.

Section Wrapper.
Context {C : Collaborators}.

Lemma run_normal (options : option RunOptions) (w w1 : World) (a : unit) :
  runThrowsErrors (Some (optionsOrDefault options)) w = (Normal a, w1) ->
  run options w = (Normal a, w1).
Proof.
  unfold run, try_catch, optionsOrDefault. intros ->. reflexivity.
Qed.

Lemma run_catches (options : option RunOptions) (w w1 : World) (e : JsValue) :
  runThrowsErrors (Some (optionsOrDefault options)) w = (Throw e, w1) ->
  fst (run options w) =
    (if truthy_flag (suppressErrors (optionsOrDefault options))
     then Normal tt else Throw e)
  /\ dom (snd (run options w)) = dom w1
  /\ parseError (snd (run options w)) = parseError w1
  /\ trace (snd (run options w)) =
     trace w1 ++ wrapperEvents
                  (truthy_flag (suppressErrors (optionsOrDefault options)))
                  (parseError w1) e.
Proof.
  unfold run, try_catch, optionsOrDefault. intros ->.
  unfold wrapperEvents, bind, log, callParseError, emit, getParseError, ret, throw.
  destruct (asDetailedError e) as [d|]; cbn [fst snd dom trace parseError];
    destruct (parseError w1) as [f|] eqn:Hp; cbn [fst snd dom trace parseError];
    destruct (truthy_flag _); cbn [negb fst snd dom trace parseError];
    norm_trace; rewrite ?app_nil_r, ?Hp; auto.
Qed.

Lemma run_completion (options : option RunOptions) (w : World) :
  fst (run options w) =
  match fst (runThrowsErrors (Some (optionsOrDefault options)) w) with
  | Normal a => Normal a
  | Throw e =>
      if truthy_flag (suppressErrors (optionsOrDefault options))
      then Normal tt else Throw e
  end.
Proof.
  destruct (runThrowsErrors (Some (optionsOrDefault options)) w)
    as [[a | e] w1] eqn:E.
  - rewrite (run_normal options w w1 a E). reflexivity.
  - apply (run_catches options w w1 e E).
Qed.

Lemma runThrowsErrors_throws (o : RunOptions) (w : World) (e : JsValue) :
  fst (runThrowsErrors (Some o) w) = Throw e ->
  (resolvable o = false /\ e = fatalError)
  \/ (resolvable o = true
      /\ exists t first rest,
          trace (snd (runThrowsErrors (Some o) w)) = trace w ++ t
          /\ flat_map normalize (caught t) = first :: rest
          /\ e = VDetailed first).
Proof.
  intros H. destruct (resolvable o) eqn:Hr.
  - right. split; [reflexivity|].
    destruct (runThrowsErrors_resolvable o w Hr) as (t & T & E).
    rewrite E in H. exists t.
    destruct (flat_map normalize (caught t)) as [| first rest]; [discriminate|].
    exists first, rest. inversion H. auto.
  - left. rewrite (runThrowsErrors_unresolvable o w Hr) in H.
    inversion H. auto.
Qed.
End Wrapper.

Lemma normalize_origin (fs : list JsValue) (d : DetailedError) :
  In d (flat_map normalize fs) ->
  exists f, In f fs /\ error d = Some f /\ forall v, f <> VOther v.
Proof.
  intros H. apply in_flat_map in H as (f & Hf & Hd).
  exists f. split; [exact Hf|].
  destruct f as [d' | name msg | v]; simpl in Hd;
    [ destruct Hd as [<- | []] | destruct Hd as [<- | []] | destruct Hd ];
    split; try reflexivity; intros v'; discriminate.
Qed.

Lemma normalize_other (fs : list JsValue) :
  (forall f, In f fs -> exists v, f = VOther v) ->
  flat_map normalize fs = [].
Proof.
  induction fs as [| f fs IH]; intros H; [reflexivity|].
  destruct (H f) as [v ->]; [simpl; auto|]. simpl.
  apply IH. intros g Hg. apply H. simpl. auto.
Qed.

(* ===================================================================== *)
(** * The error normalizer *)
(* ===================================================================== *)

(** C5.  [handleError] turns a structured failure carrying [str] and
    [hash] into a detailed error that copies both, has [message] equal to
    [str] and keeps the failure itself under [error], after calling the
    hook, when there is one, as [(str, hash)]; it turns an [Error] into a
    detailed error whose [str] and [message] are the error's message and
    whose [hash] is the error's name, after calling the hook with the
    failure itself.  In both cases the raw failure is logged first as a
    warning and the detailed error is pushed at the end of the collection.
    The two examples of the specification are the last two conjuncts. *)
Theorem handleError_normalizes
        (errs : list DetailedError) (h : option ParseErrorFunction) (w : World) :
  (forall d : DetailedError,
      handleError (VDetailed d) errs h w =
      (Normal (errs ++ [mkDetailedError (str d) (hash d) (Some (str d))
                                        (Some (VDetailed d))]),
       mkWorld (dom w) (parseError w)
               (trace w ++ EvLog Warn [AVal (VDetailed d)]
                  :: match h with
                     | Some f => [EvParseError f (AStr (str d)) (Some (hash d))]
                     | None => []
                     end)))
  /\ (forall name msg : string,
         handleError (VError name msg) errs h w =
         (Normal (errs ++ [mkDetailedError msg name (Some msg)
                                           (Some (VError name msg))]),
          mkWorld (dom w) (parseError w)
                  (trace w ++ EvLog Warn [AVal (VError name msg)]
                     :: match h with
                        | Some f => [EvParseError f (AVal (VError name msg)) None]
                        | None => []
                        end)))
  /\ fst (handleError
            (VDetailed (mkDetailedError "bad syntax" "X1" None None)) [] h w) =
     Normal [mkDetailedError "bad syntax" "X1" (Some "bad syntax")
               (Some (VDetailed (mkDetailedError "bad syntax" "X1" None None)))]
  /\ fst (handleError (VError "TypeError" "boom") [] h w) =
     Normal [mkDetailedError "boom" "TypeError" (Some "boom")
                             (Some (VError "TypeError" "boom"))].
Proof.
  repeat split; intros; rewrite handleError_eq; destruct h; reflexivity.
Qed.

(** C6.  A failure of neither shape is logged and handed to the hook, when
    there is one, and nothing is appended to the collection.  So it never
    surfaces from [run]: a value thrown by [run] is not such a failure and
    is not a detailed error made from one, and a pass in which every
    failure handed to [handleError] is of neither shape returns normally. *)
Theorem unrecognized_failure_not_collected {C : Collaborators}
        (v : string) (errs : list DetailedError) (h : option ParseErrorFunction)
        (w : World) (options : option RunOptions) :
  handleError (VOther v) errs h w =
  (Normal errs,
   mkWorld (dom w) (parseError w)
           (trace w ++ EvLog Warn [AVal (VOther v)]
              :: match h with
                 | Some f => [EvParseError f (AVal (VOther v)) None]
                 | None => []
                 end))
  /\ (forall e, fst (run options w) = Throw e ->
                e <> VOther v
                /\ forall d, e = VDetailed d -> error d <> Some (VOther v))
  /\ (forall t,
         resolvable (optionsOrDefault options) = true ->
         trace (snd (runThrowsErrors (Some (optionsOrDefault options)) w))
         = trace w ++ t ->
         (forall f, In f (caught t) -> exists v', f = VOther v') ->
         fst (run options w) = Normal tt).
Proof.
  split; [| split].
  - rewrite handleError_eq. rewrite app_nil_r. destruct h; reflexivity.
  - intros e He. rewrite run_completion in He.
    destruct (fst (runThrowsErrors (Some (optionsOrDefault options)) w))
      as [a | e0] eqn:E; [discriminate|].
    destruct (truthy_flag _); [discriminate|]. inversion He; subst e0.
    apply runThrowsErrors_throws in E
        as [[_ ->] | (_ & t & first & rest & _ & Hc & ->)].
    + split; [discriminate|]. intros d Hd. discriminate Hd.
    + split; [discriminate|]. intros d Hd. inversion Hd; subst d.
      destruct (normalize_origin (caught t) first) as (f & _ & Ef & Hf).
      { rewrite Hc. simpl. auto. }
      rewrite Ef. intros Habs. inversion Habs. exact (Hf v H0).
  - intros t Hr Ht Hall. rewrite run_completion.
    destruct (runThrowsErrors_resolvable _ w Hr) as (t' & Ht' & E).
    rewrite Ht in Ht'. apply app_inv_head in Ht'. subst t'.
    rewrite E, (normalize_other _ Hall). reflexivity.
Qed.

(** An instance: the engine rejects both elements with a value of neither
    shape, and the call returns normally. *)
Lemma unrecognized_failure_not_collected_witness :
  resolvable (mkRunOptions None (Some [0; 1]) None None) = true
  /\ fst (@run rawFailureCollaborators
               (Some (mkRunOptions None (Some [0; 1]) None None)) sampleWorld)
     = Normal tt.
Proof.
  split; [reflexivity|].
  eapply (@unrecognized_failure_not_collected rawFailureCollaborators
            "out of memory" [] None sampleWorld
            (Some (mkRunOptions None (Some [0; 1]) None None))).
  - reflexivity.
  - vm_compute. reflexivity.
  - intros f Hin. vm_compute in Hin.
    destruct Hin as [<- | [<- | []]]; eexists; reflexivity.
Defined.

(* ===================================================================== *)
(** * The outcome of a pass *)
(* ===================================================================== *)

(** C4.  In a pass whose element source resolves (no fatal failure), let
    the collection be the detailed errors made, in order, from the failures
    handed to [handleError].  If the collection is empty [runThrowsErrors]
    returns normally; otherwise it throws the first collected error and
    nothing else of the collection, and [run] without suppression throws
    that same value. *)
Theorem first_collected_error_is_raised {C : Collaborators}
        (o : RunOptions) (w : World) :
  resolvable o = true ->
  exists t,
    trace (snd (runThrowsErrors (Some o) w)) = trace w ++ t
    /\ fst (runThrowsErrors (Some o) w) =
       match flat_map normalize (caught t) with
       | [] => Normal tt
       | first :: _ => Throw (VDetailed first)
       end
    /\ (truthy_flag (suppressErrors o) = false ->
        fst (run (Some o) w) = fst (runThrowsErrors (Some o) w)).
Proof.
  intros Hr. destruct (runThrowsErrors_resolvable o w Hr) as (t & T & E).
  exists t. split; [exact T|]. split; [exact E|].
  intros Hs. rewrite run_completion. simpl. rewrite Hs.
  destruct (fst (runThrowsErrors (Some o) w)) as [[] | e]; reflexivity.
Qed.

(** An instance: four nodes, of which the second, named twice, is the one
    the engine rejects. *)
Lemma first_collected_error_is_raised_witness :
  resolvable (mkRunOptions None (Some [0; 1; 2; 1]) None None) = true
  /\ exists t,
      trace (snd (@runThrowsErrors sampleCollaborators
                    (Some (mkRunOptions None (Some [0; 1; 2; 1]) None None))
                    sampleWorld))
      = trace sampleWorld ++ t
      /\ fst (@runThrowsErrors sampleCollaborators
                (Some (mkRunOptions None (Some [0; 1; 2; 1]) None None))
                sampleWorld)
         = match flat_map normalize (caught t) with
           | [] => Normal tt
           | first :: _ => Throw (VDetailed first)
           end
      /\ (truthy_flag (suppressErrors (mkRunOptions None (Some [0; 1; 2; 1]) None None))
          = false ->
          fst (@run sampleCollaborators
                 (Some (mkRunOptions None (Some [0; 1; 2; 1]) None None))
                 sampleWorld)
          = fst (@runThrowsErrors sampleCollaborators
                   (Some (mkRunOptions None (Some [0; 1; 2; 1]) None None))
                   sampleWorld)).
Proof.
  split; [reflexivity|].
  apply (@first_collected_error_is_raised sampleCollaborators). reflexivity.
Defined.




(* ===================================================================== *)
(** * The working set *)
(* ===================================================================== *)

(** The working set as lines 116-123 resolve it: the explicit node list
    when the options carry one (an empty list too); otherwise the result
    of querying the document with the selector, when the options carry a
    selector that is not the empty string.  A call with no options
    argument runs with [{ querySelector: '.mermaid' }].  A pass fails with
    the fatal error exactly when the options carry neither a node list nor
    a non-empty selector; it then fails at once, having written one debug
    line only: no element is visited and nothing goes through
    [handleError]. *)
Lemma working_set_resolution {C : Collaborators} (o : RunOptions) (w : World) :
  (forall ns, nodes o = Some ns -> nodesToProcess o w = (Normal ns, w))
  /\ (forall q, nodes o = None -> querySelector o = Some q ->
                truthy_string q = true ->
                nodesToProcess o w = (Normal (querySelectorAll (dom w) q), w))
  /\ run None w = run (Some defaultRunOptions) w
  /\ nodesToProcess defaultRunOptions w
     = (Normal (querySelectorAll (dom w) ".mermaid"), w)
  /\ (resolvable o = false ->
      runThrowsErrors (Some o) w
      = (Throw fatalError,
         mkWorld (dom w) (parseError w) (trace w ++ [callbackLine o])))
  /\ (fst (runThrowsErrors (Some o) w) = Throw fatalError
      <-> resolvable o = false).
Proof.
  repeat split.
  - intros ns H. unfold nodesToProcess. rewrite H. reflexivity.
  - intros q Hn Hq Ht. unfold nodesToProcess. rewrite Hn, Hq, Ht. reflexivity.
  - apply runThrowsErrors_unresolvable.
  - intros H. apply runThrowsErrors_throws in H
        as [[Hr _] | (_ & t & first & rest & _ & _ & Habs)];
      [exact Hr | discriminate Habs].
  - intros H. rewrite (runThrowsErrors_unresolvable o w H). reflexivity.
Qed.

(** C9.  The selector does not default to ['.mermaid'] when the options
    leave it out, although the documentation of [RunOptions] says so
    (lines 28 and 34) and [init] does so (line 213).  The document has
    three elements that ['.mermaid'] finds.  Called with options that
    carry a callback only, [run] does not fall back on that selector: it
    fails with the fatal error and renders nothing.  [init], given the
    same callback and no nodes, has the three elements as its working
    set. *)
Lemma options_without_source_are_fatal :
  @querySelectorAll sampleCollaborators (dom sampleWorld) ".mermaid" = [0; 1; 2]
  /\ @run sampleCollaborators
          (Some (mkRunOptions None None (Some (fun _ => None)) None)) sampleWorld
     = (Throw fatalError,
        mkWorld sampleDocument None
          [EvLog Debug [AStr "Callback function found"];
           EvLog Error
             [AStr "Use the suppressErrors option to suppress these errors"]])
  /\ @nodesToProcess sampleCollaborators
       (initRunOptions None (Some (fun _ => None))) sampleWorld
     = (Normal [0; 1; 2], sampleWorld).
Proof. repeat split. Qed.

(* ===================================================================== *)
(** * Failures of the callback and of the binding hook *)
(* ===================================================================== *)

Section Callbacks.
Context {C : Collaborators}.
Variables (o : RunOptions) (g : nat -> string).

Lemma forOf_Once (r : ref) (l : list ref) (s : LoopState) (w : World) :
  Once r w (snd (forOf l (processElement o g) s w)).
Proof.
  apply (keeps_forOf (Once r)).
  - apply Once_trans.
  - apply Once_quiet.
  - intros x s0. apply (keeps_processElement (Once r)).
    intros y. apply Once_visit.
Qed.

Lemma forOf_marks (l : list ref) (s : LoopState) (w : World) (r : ref) :
  In r l -> marked (dom (snd (forOf l (processElement o g) s w)) r) = true.
Proof.
  revert s w. induction l as [| x l IH]; intros s w Hin; [destruct Hin|].
  simpl. unfold bind.
  destruct (processElement_visit o g x s w) as ([s1 E1] & _ & V).
  destruct (processElement o g x s w) as [c w1]. simpl in E1, V. subst c.
  destruct Hin as [<- | Hin]; [|apply IH; exact Hin].
  destruct (forOf_Once x l s1 w1) as (t & _ & _ & M & _).
  destruct (M (Visit_marks _ _ _ V)) as (_ & _ & ->).
  exact (Visit_marks _ _ _ V).
Qed.


End Callbacks.




(* ===================================================================== *)
(** * The marker and the content of an element *)
(* ===================================================================== *)

Section Marker.
Context {C : Collaborators}.

Lemma runThrowsErrors_marks (o : RunOptions) (w : World) (l : list ref) (r : ref) :
  fst (nodesToProcess o w) = Normal l -> In r l ->
  marked (dom (snd (runThrowsErrors (Some o) w)) r) = true.
Proof.
  intros Hl Hin.
  assert (Hn : forall w0, dom w0 = dom w -> nodesToProcess o w0 = (Normal l, w0)).
  { revert Hl. unfold nodesToProcess, getDocument, bind, ret, throw.
    destruct (nodes o) as [ns|]; simpl.
    - intros E w0 _. inversion E. reflexivity.
    - destruct (querySelector o) as [q|]; [|discriminate].
      destruct (truthy_string q); [|discriminate]. simpl.
      intros E w0 Hd. inversion E. rewrite Hd. reflexivity. }
  unfold runThrowsErrors, scan, log, emit, bind, ret, throw.
  rewrite Hn by reflexivity. cbn [fst snd dom trace parseError].
  destruct (startOnLoad getConfig) as [b|]; cbn [fst snd dom trace parseError];
    match goal with
    | |- context [forOf ?l0 ?body ?s0 ?w0] =>
        pose proof (forOf_marks o
                      (initIdGenerator (deterministicIds getConfig)
                                       (deterministicIDSeed getConfig))
                      l0 s0 w0 r Hin) as Hmk;
        destruct (forOf l0 body s0 w0) as [[s' | e] w1]
    end; cbn [fst snd] in *;
    try (destruct (errors s')); exact Hmk.
Qed.

Lemma run_dom (options : option RunOptions) (w : World) :
  dom (snd (run options w))
  = dom (snd (runThrowsErrors (Some (optionsOrDefault options)) w)).
Proof.
  destruct (runThrowsErrors (Some (optionsOrDefault options)) w)
    as [[a | e] w1] eqn:E.
  - rewrite (run_normal options w w1 a E). reflexivity.
  - apply (run_catches options w w1 e E).
Qed.
End Marker.

Lemma produced_In (r : ref) (t : list Event) (id txt a : string) :
  In (EvRender id txt r (Produced a)) t -> 1 <= produced r t.
Proof.
  induction t as [| ev t IH]; simpl; [tauto|].
  intros [-> | Hin]; rewrite produced_cons.
  - simpl. rewrite Nat.eqb_refl. lia.
  - specialize (IH Hin). lia.
Qed.

(** C2.  Take two calls of [run], one after the other, with any options.
    Over both calls: the marker of an element is set before the engine is
    asked to render it; no element is rendered more than once, a failed
    render counting as one; an element that carried the marker at the
    start, or was rendered by the first call, is neither rendered nor
    written to by the second call and is left as it was.  An element that
    carries the marker is skipped: the loop body writes its log line and
    changes nothing else.  Every element of the first call's working set
    carries the marker after the first call. *)
Theorem run_twice_processes_once {C : Collaborators}
        (o1 o2 : option RunOptions) (w : World) :
  exists t1 t2,
    trace (snd (run o1 w)) = trace w ++ t1
    /\ trace (snd (run o2 (snd (run o1 w)))) = trace (snd (run o1 w)) ++ t2
    /\ (forall pre id txt r out post,
           t1 ++ t2 = pre ++ EvRender id txt r out :: post ->
           In (EvSetAttribute r "data-processed" "true") pre)
    /\ (forall r, renders r (t1 ++ t2) <= 1)
    /\ (forall r,
           marked (dom w r) = true \/ 1 <= renders r t1 ->
           renders r t2 = 0 /\ writes r t2 = 0
           /\ dom (snd (run o2 (snd (run o1 w)))) r = dom (snd (run o1 w)) r)
    /\ (forall o g x s,
           marked (dom w x) = true ->
           processElement o g x s w
           = (Normal s,
              mkWorld (dom w) (parseError w)
                (trace w ++ [EvLog Info
                               [AStr ("Rendering diagram: " ++ el_id (dom w x))%string]])))
    /\ (forall l r,
           fst (nodesToProcess (optionsOrDefault o1) w) = Normal l ->
           In r l -> marked (dom (snd (run o1 w)) r) = true).
Proof.
  destruct (run_MarkFirst o1 w) as (t1 & T1 & F1).
  destruct (run_MarkFirst o2 (snd (run o1 w))) as (t2 & T2 & F2).
  exists t1, t2. split; [exact T1|]. split; [exact T2|].
  split; [|split; [|split; [|split]]].
  - destruct (MarkFirst_trans _ _ _ (run_MarkFirst o1 w)
                (run_MarkFirst o2 (snd (run o1 w)))) as (t & T & F).
    rewrite T2, T1, <- app_assoc in T. apply app_inv_head in T. subst t.
    exact F.
  - intros r.
    destruct (Once_trans r _ _ _ (run_Once r o1 w)
                (run_Once r o2 (snd (run o1 w)))) as (t & T & L & _).
    rewrite T2, T1, <- app_assoc in T. apply app_inv_head in T. subst t.
    exact L.
  - intros r H.
    destruct (run_Once r o1 w) as (t & T & _ & M1 & N1).
    rewrite T1 in T. apply app_inv_head in T. subst t.
    destruct (run_Once r o2 (snd (run o1 w))) as (t & T & _ & M2 & _).
    rewrite T2 in T. apply app_inv_head in T. subst t.
    apply M2. destruct H as [H | H].
    + destruct (M1 H) as (_ & _ & ->). exact H.
    + apply N1. exact H.
  - intros o g x s Hm.
    unfold processElement, getElement, log, emit, bind, ret.
    cbn [fst snd dom trace parseError]. unfold marked in Hm. rewrite Hm.
    reflexivity.
  - intros l r Hl Hin. rewrite run_dom.
    apply (runThrowsErrors_marks _ w l r Hl Hin).
Qed.

(** C10.  Look at one element over a call of [run].  If the engine was
    asked to render it and failed, its content and its id are as before,
    its marker is ['true'], and the call made no write of content to it.
    Content is written to an element only as the artifact of a render of
    that element that succeeded, and the content of an element differs
    after the call only if such a render took place. *)
Theorem failed_render_keeps_content {C : Collaborators}
        (options : option RunOptions) (w : World) (r : ref) :
  exists t,
    trace (snd (run options w)) = trace w ++ t
    /\ (forall id txt e,
           In (EvRender id txt r (Failed e)) t ->
           innerHTML (dom (snd (run options w)) r) = innerHTML (dom w r)
           /\ el_id (dom (snd (run options w)) r) = el_id (dom w r)
           /\ data_processed (dom (snd (run options w)) r) = Some "true"
           /\ forall a, ~ In (EvSetInnerHTML r a) t)
    /\ (forall a, In (EvSetInnerHTML r a) t ->
                  exists id txt, In (EvRender id txt r (Produced a)) t)
    /\ (innerHTML (dom (snd (run options w)) r) <> innerHTML (dom w r) ->
        1 <= produced r t).
Proof.
  destruct (run_Frame r options w) as (t & T & I & P & H & S).
  destruct (run_Once r options w) as (t' & T' & L & M & N).
  rewrite T in T'. apply app_inv_head in T'. subst t'.
  exists t. split; [exact T|]. split; [|split].
  - intros id txt e Hin.
    pose proof (failed_render_counts r t id txt e Hin) as Hlt.
    assert (Hp : produced r t = 0) by lia.
    split; [exact (H Hp)|]. split; [exact I|]. split.
    + assert (Hnow : marked (dom (snd (run options w)) r) = true)
        by (apply N; lia).
      destruct P as [P | P]; [|exact P].
      assert (Hbefore : marked (dom w r) = true)
        by (unfold marked in *; rewrite <- P; exact Hnow).
      destruct (M Hbefore) as (R0 & _). lia.
    + intros a Ha. destruct (S a Ha) as (id' & txt' & Hr).
      pose proof (produced_In r t id' txt' a Hr). lia.
  - exact S.
  - intros Hne. destruct (produced r t) as [|n] eqn:Hp; [|lia].
    destruct Hne. exact (H eq_refl).
Qed.

(* ===================================================================== *)
(** * The ids of a pass, and suppression *)
(* ===================================================================== *)

Lemma renderIds_app (t1 t2 : list Event) :
  renderIds (t1 ++ t2) = renderIds t1 ++ renderIds t2.
Proof.
  induction t1 as [| ev t1 IH]; [reflexivity|].
  destruct ev; simpl; rewrite ?IH; reflexivity.
Qed.

Lemma renderIds_hookCalls (h : option ParseErrorFunction) (e : JsValue) :
  renderIds (hookCalls h e) = [].
Proof. destruct h, e; reflexivity. Qed.

Lemma append_inj_l (p a b : string) : (p ++ a = p ++ b)%string -> a = b.
Proof.
  induction p as [| c p IH]; cbn [append]; intros H; [exact H|].
  inversion H. auto.
Qed.

Section Ids.
Context {C : Collaborators}.
Variables (o : RunOptions) (g : nat -> string).

Lemma processElement_ids (x : ref) (s : LoopState) (w : World) :
  exists s' t n,
    fst (processElement o g x s w) = Normal s'
    /\ trace (snd (processElement o g x s w)) = trace w ++ t
    /\ drawn s' = drawn s + n
    /\ renderIds t = map (fun k => ("mermaid-" ++ g k)%string) (seq (drawn s) n).
Proof.
  unfold processElement, awaitRender, awaitCallback, callBind, setAttribute, setInnerHTML,
    modifyElement, getElement, getDocument, getParseError, log, emit, try_catch, bind, ret, throw.
  cbn [fst snd dom trace parseError].
  destruct (truthy_attr (data_processed (dom w x))) eqn:Hm.
  - cbn. exists s. eexists. exists 0. split; [reflexivity|]. split; [reflexivity|].
    split; [lia | reflexivity].
  - cbn [fst snd dom trace parseError].
    unfold update. cbn [dom]. rewrite Nat.eqb_refl. cbn [innerHTML el_id data_processed].
    destruct (detectInit _) as [ini|]; cbn [fst snd dom trace parseError];
    (destruct (mermaidAPI_render _ _ _ _) as [rr|e]; cbn [fst snd dom trace parseError];
     [ destruct (postRenderCallback o) as [cb|]; cbn [fst snd dom trace parseError];
       [ destruct (cb _) as [e|]; cbn [fst snd dom trace parseError] | ];
       try (destruct (bindFunctions rr) as [bf|]; cbn [fst snd dom trace parseError];
            [ destruct (bf _) as [e'|]; cbn [fst snd dom trace parseError] | ])
     | ]);
    rewrite ?handleError_eq; cbn [fst snd dom trace parseError];
    norm_trace; eexists; eexists; exists 1;
    (split; [reflexivity|]); (split; [reflexivity|]);
    (split; [cbn [drawn]; lia|]);
    cbn [renderIds seq map]; rewrite ?renderIds_hookCalls; reflexivity.
Qed.

Lemma forOf_ids (l : list ref) (s : LoopState) (w : World) :
  exists s' t n,
    fst (forOf l (processElement o g) s w) = Normal s'
    /\ trace (snd (forOf l (processElement o g) s w)) = trace w ++ t
    /\ drawn s' = drawn s + n
    /\ renderIds t = map (fun k => ("mermaid-" ++ g k)%string) (seq (drawn s) n).
Proof.
  revert s w. induction l as [| x l IH]; intros s w; simpl.
  - exists s, [], 0. simpl. rewrite app_nil_r. repeat split; auto.
  - unfold bind.
    destruct (processElement_ids x s w) as (s1 & t1 & n1 & E1 & T1 & D1 & I1).
    destruct (processElement o g x s w) as [c w1]. simpl in E1, T1. subst c.
    destruct (IH s1 w1) as (s2 & t2 & n2 & E2 & T2 & D2 & I2).
    exists s2, (t1 ++ t2), (n1 + n2). split; [exact E2|].
    rewrite T2, T1, app_assoc. split; [reflexivity|]. split; [lia|].
    rewrite renderIds_app, I1, I2, D1, seq_app, map_app. reflexivity.
Qed.
End Ids.

Section PassIds.
Context {C : Collaborators}.

Lemma runThrowsErrors_ids (o : RunOptions) (w : World) :
  exists t n,
    trace (snd (runThrowsErrors (Some o) w)) = trace w ++ t
    /\ renderIds t = passIds n.
Proof.
  destruct (resolvable o) eqn:Hr.
  - assert (Hn : exists l, forall w0, nodesToProcess o w0 = (Normal (l w0), w0)).
    { unfold resolvable in Hr. unfold nodesToProcess.
      destruct (nodes o) as [ns|]; [exists (fun _ => ns); reflexivity|].
      destruct (querySelector o) as [q|]; [|discriminate]. rewrite Hr.
      exists (fun w0 => querySelectorAll (dom w0) q). reflexivity. }
    destruct Hn as [l Hl].
    unfold runThrowsErrors, scan, log, emit, bind, ret, throw.
    rewrite Hl. cbn [fst snd dom trace parseError].
    destruct (startOnLoad getConfig) as [b|]; cbn [fst snd dom trace parseError];
      match goal with
      | |- context [forOf ?l0 ?body ?s0 ?w0] =>
          destruct (forOf_ids o
                      (initIdGenerator (deterministicIds getConfig)
                                       (deterministicIDSeed getConfig)) l0 s0 w0)
            as (s' & t & n & E & T & _ & I);
          destruct (forOf l0 body s0 w0) as [c w1]
      end;
      cbn [fst snd dom trace parseError drawn] in E, T, I; subst c;
      eexists; exists n;
      (split;
       [ destruct (errors s'); cbn [snd]; rewrite T; norm_trace; reflexivity
       | cbn [renderIds]; exact I ]).
  - rewrite (runThrowsErrors_unresolvable o w Hr). cbn [snd trace].
    eexists. exists 0. split; reflexivity.
Qed.
End PassIds.

(** X1.  The ids of one call of [run] are ['mermaid-'] followed by the
    successive values of the generator made for the call, one per element
    rendered, in the order of rendering: an element that is skipped draws
    no value.  So the ids of a call are pairwise distinct when the
    generator does not give the same value twice. *)
Theorem ids_of_a_pass {C : Collaborators} (options : option RunOptions) (w : World) :
  exists t,
    trace (snd (run options w)) = trace w ++ t
    /\ renderIds t = passIds (List.length (renderIds t))
    /\ ((forall j k,
            initIdGenerator (deterministicIds getConfig)
                            (deterministicIDSeed getConfig) j
            = initIdGenerator (deterministicIds getConfig)
                              (deterministicIDSeed getConfig) k -> j = k) ->
        NoDup (renderIds t)).
Proof.
  destruct (runThrowsErrors_ids (optionsOrDefault options) w) as (t & n & T & I).
  assert (Hrun : exists t', trace (snd (run options w)) = trace w ++ t'
                            /\ renderIds t' = passIds n).
  { destruct (runThrowsErrors (Some (optionsOrDefault options)) w)
      as [[a | e] w1] eqn:E; cbn [snd] in T.
    - rewrite (run_normal options w w1 a E). exists t. auto.
    - destruct (run_catches options w w1 e E) as (_ & _ & _ & Tr).
      eexists. rewrite Tr, T, <- app_assoc. split; [reflexivity|].
      rewrite renderIds_app, I. unfold wrapperEvents.
      destruct (asDetailedError e), (parseError w1), (truthy_flag _);
        simpl; now rewrite app_nil_r. }
  destruct Hrun as (t' & T' & I').
  exists t'. split; [exact T'|].
  assert (Hlen : List.length (renderIds t') = n)
    by (rewrite I'; unfold passIds; now rewrite length_map, length_seq).
  rewrite Hlen. split; [exact I'|].
  intros Hinj. rewrite I'. unfold passIds.
  apply Injective_map_NoDup; [|apply seq_NoDup].
  intros j k H. apply Hinj. exact (append_inj_l _ _ _ H).
Qed.



Lemma renders_In (r : ref) (t : list Event) (id txt : string) (o : Outcome) :
  In (EvRender id txt r o) t -> 1 <= renders r t.
Proof.
  induction t as [| ev t IH]; simpl; [tauto|].
  intros [-> | Hin]; rewrite renders_cons.
  - simpl. rewrite Nat.eqb_refl. lia.
  - specialize (IH Hin). lia.
Qed.

Lemma Shown_trans (r : ref) (w1 w2 w3 : World) :
  Shown r w1 w2 -> Shown r w2 w3 -> Shown r w1 w3.
Proof.
  intros [O1 (t1 & T1 & A1)] [O2 (t2 & T2 & A2)].
  split; [exact (Once_trans r w1 w2 w3 O1 O2)|].
  exists (t1 ++ t2). rewrite T2, T1, app_assoc. split; [reflexivity|].
  intros id txt a Hin. apply in_app_or in Hin as [Hin | Hin].
  - destruct O1 as (t & T & _ & _ & N1).
    rewrite T1 in T. apply app_inv_head in T. subst t.
    destruct O2 as (t & T & _ & M2 & _).
    destruct (M2 (N1 (renders_In r t1 id txt _ Hin))) as (_ & _ & ->).
    exact (A1 id txt a Hin).
  - exact (A2 id txt a Hin).
Qed.

Lemma Shown_quiet (r : ref) (w w' : World) (t : list Event) :
  forallb quiet t = true -> trace w' = trace w ++ t ->
  (forall y, dom w' y = dom w y) -> Shown r w w'.
Proof.
  intros Hq Ht Hd. split; [exact (Once_quiet r w w' t Hq Ht Hd)|].
  exists t. split; [exact Ht|].
  intros id txt a Hin. pose proof (quiet_In t _ Hq Hin). discriminate.
Qed.

Lemma Shown_visit (r x : ref) (w w' : World) : Visit x w w' -> Shown r w w'.
Proof.
  intros V. split; [exact (Once_visit r x w w' V)|].
  destruct V as [t Hm Hq Ht Hd | pre mid post id txt e Hm Hpre Hmid Hpost Ht Hd
                | pre mid post id txt a Hm Hpre Hmid Hpost Ht Hd].
  - exists t. split; [exact Ht|].
    intros id txt a Hin. pose proof (quiet_In t _ Hq Hin). discriminate.
  - eexists. split; [exact Ht|].
    intros id' txt' a Hin.
    apply in_app_or in Hin as [Hin | [Hin | Hin]]; [| discriminate |].
    + pose proof (quiet_In _ _ Hpre Hin). discriminate.
    + apply in_app_or in Hin as [Hin | [Hin | Hin]]; [| discriminate |].
      * pose proof (quiet_In _ _ Hmid Hin). discriminate.
      * pose proof (quiet_In _ _ Hpost Hin). discriminate.
  - eexists. split; [exact Ht|].
    intros id' txt' b Hin.
    apply in_app_or in Hin as [Hin | [Hin | Hin]]; [| discriminate |].
    + pose proof (quiet_In _ _ Hpre Hin). discriminate.
    + apply in_app_or in Hin as [Hin | [Hin | [Hin | Hin]]]; [| | discriminate |].
      * pose proof (quiet_In _ _ Hmid Hin). discriminate.
      * inversion Hin; subst. rewrite Hd, Nat.eqb_refl. reflexivity.
      * pose proof (quiet_In _ _ Hpost Hin). discriminate.
Qed.

(** X3.  Failures are isolated from one element to the next: whatever
    happens to the other elements of a call of [run], and whether the call
    ends by throwing or not, an element for which the engine produced an
    artifact carries the marker and has that artifact as its content when
    the call ends. *)
Theorem rendered_elements_keep_their_artifact {C : Collaborators}
        (options : option RunOptions) (w : World) (r : ref) :
  exists t,
    trace (snd (run options w)) = trace w ++ t
    /\ forall id txt a,
        In (EvRender id txt r (Produced a)) t ->
        innerHTML (dom (snd (run options w)) r) = a
        /\ marked (dom (snd (run options w)) r) = true.
Proof.
  assert (H : Shown r w (snd (run options w))).
  { apply (keeps_run (Shown r)).
    - apply Shown_trans.
    - apply Shown_quiet.
    - intros x. apply Shown_visit. }
  destruct H as [(t' & T' & _ & _ & N) (t & T & A)].
  rewrite T in T'. apply app_inv_head in T'. subst t'.
  exists t. split; [exact T|].
  intros id txt a Hin. split; [exact (A id txt a Hin)|].
  apply N. exact (renders_In r t id txt _ Hin).
Qed.

(* ===================================================================== *)
(** * The engine calls of a pass *)
(* ===================================================================== *)

Lemma renderCalls_app (t1 t2 : list Event) :
  renderCalls (t1 ++ t2) = renderCalls t1 ++ renderCalls t2.
Proof.
  induction t1 as [| ev t1 IH]; [reflexivity|].
  destruct ev; simpl; rewrite ?IH; reflexivity.
Qed.

Lemma renderCalls_quiet (t : list Event) :
  forallb quiet t = true -> renderCalls t = [].
Proof.
  induction t as [| ev t IH]; [reflexivity|].
  simpl. intros H. apply andb_true_iff in H as [Hev Ht].
  destruct ev; simpl in *; try discriminate; auto.
Qed.

Lemma renderPlan_ext (m1 m2 : ref -> bool) (l : list ref) :
  (forall r, m1 r = m2 r) -> renderPlan m1 l = renderPlan m2 l.
Proof.
  revert m1 m2. induction l as [| x l IH]; intros m1 m2 H; [reflexivity|].
  simpl. rewrite (H x). destruct (m2 x); [apply IH; exact H|].
  f_equal. apply IH. intros r. now rewrite H.
Qed.

Lemma renderPlan_unmarked (m : ref -> bool) (l : list ref) (x : ref) :
  In x (renderPlan m l) -> In x l /\ m x = false.
Proof.
  revert m. induction l as [| y l IH]; intros m; simpl; [tauto|].
  destruct (m y) eqn:Hy.
  - intros H. destruct (IH m H). auto.
  - intros [<- | H]; [auto|].
    destruct (IH _ H) as [Hin Hm]. apply orb_false_iff in Hm as [_ Hm]. auto.
Qed.



Lemma plannedCalls_ext {C : Collaborators} (g : nat -> string)
      (d1 d2 : Document) (k : nat) (xs : list ref) :
  (forall x, In x xs -> d1 x = d2 x) ->
  plannedCalls g d1 k xs = plannedCalls g d2 k xs.
Proof.
  revert k. induction xs as [| x xs IH]; intros k H; [reflexivity|].
  simpl. rewrite (H x) by (simpl; auto). f_equal. apply IH.
  intros y Hy. apply H. simpl. auto.
Qed.

Section Plan.
Context {C : Collaborators}.
Variables (o : RunOptions) (g : nat -> string).

Lemma renderCalls_hookCalls (h : option ParseErrorFunction) (e : JsValue) :
  renderCalls (hookCalls h e) = [].
Proof. destruct h, e; reflexivity. Qed.

(** One visit: the engine is called once, with the next id and the cleaned
    content of the element, unless the element carries the marker. *)
Lemma processElement_call (x : ref) (s : LoopState) (w : World) :
  exists s' t,
    fst (processElement o g x s w) = Normal s'
    /\ trace (snd (processElement o g x s w)) = trace w ++ t
    /\ if marked (dom w x)
       then renderCalls t = [] /\ drawn s' = drawn s
       else renderCalls t
            = [(("mermaid-" ++ g (drawn s))%string,
                cleanText (innerHTML (dom w x)), x)]
            /\ drawn s' = S (drawn s).
Proof.
  unfold marked.
  unfold processElement, awaitRender, awaitCallback, callBind, setAttribute, setInnerHTML,
    modifyElement, getElement, getDocument, getParseError, log, emit, try_catch, bind, ret, throw.
  cbn [fst snd dom trace parseError].
  destruct (truthy_attr (data_processed (dom w x))) eqn:Hm.
  - cbn. exists s. eexists. split; [reflexivity|]. split; [reflexivity|].
    split; reflexivity.
  - cbn [fst snd dom trace parseError].
    unfold update. cbn [dom]. rewrite Nat.eqb_refl. cbn [innerHTML el_id data_processed].
    destruct (detectInit _) as [ini|]; cbn [fst snd dom trace parseError];
    (destruct (mermaidAPI_render _ _ _ _) as [rr|e]; cbn [fst snd dom trace parseError];
     [ destruct (postRenderCallback o) as [cb|]; cbn [fst snd dom trace parseError];
       [ destruct (cb _) as [e|]; cbn [fst snd dom trace parseError] | ];
       try (destruct (bindFunctions rr) as [bf|]; cbn [fst snd dom trace parseError];
            [ destruct (bf _) as [e'|]; cbn [fst snd dom trace parseError] | ])
     | ]);
    rewrite ?handleError_eq; cbn [fst snd dom trace parseError];
    norm_trace; eexists; eexists;
    (split; [reflexivity|]); (split; [reflexivity|]);
    cbn [renderCalls drawn]; rewrite ?renderCalls_hookCalls; split; reflexivity.
Qed.

Lemma Visit_dom (x : ref) (w w' : World) :
  Visit x w w' ->
  forall r,
    (Nat.eqb r x = false \/ marked (dom w x) = true -> dom w' r = dom w r)
    /\ marked (dom w' r) = (Nat.eqb r x || marked (dom w r)).
Proof.
  intros [t Hm Hq Ht Hd | pre mid post id txt e Hm Hpre Hmid Hpost Ht Hd
         | pre mid post id txt a Hm Hpre Hmid Hpost Ht Hd] r; rewrite Hd.
  - split; [reflexivity|].
    destruct (Nat.eqb r x) eqn:E; [|reflexivity].
    apply Nat.eqb_eq in E. subst. now rewrite Hm.
  - destruct (Nat.eqb r x) eqn:E.
    + split; [|reflexivity]. intros [H | H]; congruence.
    + split; reflexivity.
  - destruct (Nat.eqb r x) eqn:E.
    + split; [|reflexivity]. intros [H | H]; congruence.
    + split; reflexivity.
Qed.

Lemma forOf_calls (l : list ref) (s : LoopState) (w : World) :
  exists s' t,
    fst (forOf l (processElement o g) s w) = Normal s'
    /\ trace (snd (forOf l (processElement o g) s w)) = trace w ++ t
    /\ renderCalls t
       = plannedCalls g (dom w) (drawn s)
           (renderPlan (fun r => marked (dom w r)) l)
    /\ forall r, ~ In r (renderPlan (fun r => marked (dom w r)) l) ->
                 dom (snd (forOf l (processElement o g) s w)) r = dom w r.
Proof.
  revert s w. induction l as [| x l IH]; intros s w.
  - exists s, []. simpl. rewrite app_nil_r. auto.
  - cbn [forOf]. unfold bind.
    destruct (processElement_call x s w) as (s1 & t1 & E1 & T1 & K1).
    destruct (processElement_visit o g x s w) as (_ & _ & V).
    destruct (processElement o g x s w) as [c w1]. cbn [fst snd] in *. subst c.
    destruct (IH s1 w1) as (s2 & t2 & E2 & T2 & K2 & F2).
    pose proof (Visit_dom x w w1 V) as Hd.
    exists s2, (t1 ++ t2). split; [exact E2|].
    rewrite T2, T1, app_assoc. split; [reflexivity|].
    rewrite renderCalls_app, K2. cbn [renderPlan].
    destruct (marked (dom w x)) eqn:Hm; rewrite ?Hm in K1.
    + destruct K1 as [-> ->].
      assert (Hsame : forall r, dom w1 r = dom w r)
        by (intros r; apply Hd; right; reflexivity).
      rewrite (renderPlan_ext (fun r => marked (dom w1 r))
                              (fun r => marked (dom w r)))
        by (intros r; now rewrite Hsame).
      split.
      * cbn [app]. apply plannedCalls_ext. intros y _. apply Hsame.
      * intros r Hr. rewrite (F2 r), Hsame; [reflexivity|].
        rewrite (renderPlan_ext (fun r => marked (dom w1 r))
                                (fun r => marked (dom w r)))
          by (intros r0; now rewrite Hsame). exact Hr.
    + destruct K1 as [-> ->].
      rewrite (renderPlan_ext (fun r => marked (dom w1 r))
                              (fun r => Nat.eqb r x || marked (dom w r)))
        by (intros r; apply Hd).
      split.
      * cbn [app plannedCalls]. f_equal. apply plannedCalls_ext.
        intros y Hy. apply renderPlan_unmarked in Hy as [_ Hy].
        apply orb_false_iff in Hy as [Hy _]. apply Hd. left. exact Hy.
      * intros r Hr. rewrite (F2 r).
        -- apply Hd. left. destruct (Nat.eqb r x) eqn:E; [|reflexivity].
           apply Nat.eqb_eq in E. subst. destruct Hr. simpl. auto.
        -- rewrite (renderPlan_ext (fun r => marked (dom w1 r))
                                   (fun r => Nat.eqb r x || marked (dom w r)))
             by (intros r0; apply Hd).
           intros H. apply Hr. simpl. auto.
Qed.
End Plan.

Lemma wrapperEvents_quiet (b : bool) (h : option ParseErrorFunction) (e : JsValue) :
  forallb quiet (wrapperEvents b h e) = true.
Proof.
  unfold wrapperEvents. destruct (asDetailedError e), h, b; reflexivity.
Qed.

Section PassShape.
Context {C : Collaborators}.

Lemma nodesToProcess_throws (o : RunOptions) (w : World) (e : JsValue) :
  fst (nodesToProcess o w) = Throw e -> resolvable o = false.
Proof.
  unfold nodesToProcess, resolvable, getDocument, bind, ret, throw.
  destruct (nodes o); [discriminate|].
  destruct (querySelector o) as [q|]; [|reflexivity].
  destruct (truthy_string q); [discriminate | reflexivity].
Qed.

(** A pass whose source resolves to [l] is a few log lines followed by the
    loop over [l]. *)
Lemma runThrowsErrors_scan (o : RunOptions) (w : World) (l : list ref) :
  fst (nodesToProcess o w) = Normal l ->
  exists w0 pre,
    dom w0 = dom w /\ parseError w0 = parseError w
    /\ trace w0 = trace w ++ pre /\ forallb quiet pre = true
    /\ caught pre = [] /\ hookEvents pre = []
    /\ snd (runThrowsErrors (Some o) w) = snd (scan o passGenerator l w0)
    /\ fst (runThrowsErrors (Some o) w)
       = match fst (scan o passGenerator l w0) with
         | Normal s =>
             match errors s with
             | [] => Normal tt
             | first :: _ => Throw (VDetailed first)
             end
         | Throw e => Throw e
         end
    /\ forall b, startOnLoad getConfig = Some b -> In (EvUpdateSiteConfig b) pre.
Proof.
  intros Hl.
  assert (Hn : forall w0, dom w0 = dom w -> nodesToProcess o w0 = (Normal l, w0)).
  { revert Hl. unfold nodesToProcess, getDocument, bind, ret, throw.
    destruct (nodes o) as [ns|]; simpl.
    - intros E w0 _. inversion E. reflexivity.
    - destruct (querySelector o) as [q|]; [|discriminate].
      destruct (truthy_string q); [|discriminate]. simpl.
      intros E w0 Hd. inversion E. rewrite Hd. reflexivity. }
  unfold runThrowsErrors, log, emit, bind, ret, throw.
  rewrite Hn by reflexivity. cbn [fst snd dom trace parseError].
  fold passGenerator.
  destruct (startOnLoad getConfig) as [b|]; cbn [fst snd dom trace parseError];
    match goal with
    | |- context [scan o passGenerator l ?w0] =>
        exists w0; eexists;
        (split; [reflexivity|]); (split; [reflexivity|]);
        (split; [cbn [trace]; norm_trace; reflexivity|]);
        (split; [reflexivity|]);
        (split; [reflexivity|]);
        (split; [reflexivity|]);
        (split;
         [ destruct (scan o passGenerator l w0) as [[s' | e] w1];
           cbn [fst snd]; [destruct (errors s')|]; reflexivity |]);
        (split;
         [ destruct (scan o passGenerator l w0) as [[s' | e] w1];
           cbn [fst snd]; [destruct (errors s')|]; reflexivity |]);
        intros b' Hb; inversion Hb; subst; simpl; auto
    end.
Qed.

Lemma run_trace (options : option RunOptions) (w : World) :
  exists post,
    forallb quiet post = true
    /\ trace (snd (run options w))
       = trace (snd (runThrowsErrors (Some (optionsOrDefault options)) w)) ++ post.
Proof.
  destruct (runThrowsErrors (Some (optionsOrDefault options)) w)
    as [[a | e] w1] eqn:E.
  - rewrite (run_normal options w w1 a E). exists []. simpl.
    now rewrite app_nil_r.
  - destruct (run_catches options w w1 e E) as (_ & _ & _ & T).
    eexists. split; [|exact T]. apply wrapperEvents_quiet.
Qed.

Lemma run_calls (options : option RunOptions) (w : World) (l : list ref) :
  fst (nodesToProcess (optionsOrDefault options) w) = Normal l ->
  exists t,
    trace (snd (run options w)) = trace w ++ t
    /\ renderCalls t
       = plannedCalls passGenerator (dom w) 0
           (renderPlan (fun r => marked (dom w r)) l)
    /\ forall r, ~ In r (renderPlan (fun r => marked (dom w r)) l) ->
                 dom (snd (run options w)) r = dom w r.
Proof.
  intros Hl.
  destruct (run_trace options w) as (post & Hq & Tr).
  destruct (runThrowsErrors_scan _ w l Hl)
    as (w0 & pre & Hd & _ & T0 & Hpre & _ & _ & Hs & _).
  destruct (forOf_calls (optionsOrDefault options) passGenerator l
              (mkLoopState [] 0) w0) as (s' & t & _ & T & K & F).
  exists (pre ++ t ++ post). split; [|split].
  - rewrite Tr, Hs. unfold scan. rewrite T, T0, <- !app_assoc. reflexivity.
  - rewrite !renderCalls_app, K, (renderCalls_quiet pre Hpre),
      (renderCalls_quiet post Hq), app_nil_r, Hd. reflexivity.
  - intros r Hr. rewrite run_dom, Hs. unfold scan.
    rewrite F, Hd; [reflexivity|]. rewrite Hd. exact Hr.
Qed.

Lemma run_unresolved (options : option RunOptions) (w : World) (e : JsValue) :
  fst (nodesToProcess (optionsOrDefault options) w) = Throw e ->
  exists t,
    trace (snd (run options w)) = trace w ++ t
    /\ forallb quiet t = true
    /\ dom (snd (run options w)) = dom w.
Proof.
  intros Hl. apply nodesToProcess_throws in Hl.
  destruct (run_trace options w) as (post & Hq & Tr).
  rewrite run_dom.
  rewrite (runThrowsErrors_unresolvable _ w Hl) in *. cbn [snd trace dom] in *.
  eexists. rewrite Tr, <- app_assoc. split; [reflexivity|].
  split; [exact Hq | reflexivity].
Qed.
End PassShape.



(** X5.  A call of [run] writes to the elements it renders and to no
    others: an element that is not in the working set, or that carries the
    marker when [run] is called, is the same element afterwards, and when
    the source does not resolve the whole document is. *)
Theorem run_leaves_other_elements_alone {C : Collaborators}
        (options : option RunOptions) (w : World) (r : ref) :
  match fst (nodesToProcess (optionsOrDefault options) w) with
  | Normal l => ~ In r l \/ marked (dom w r) = true
  | Throw _ => True
  end ->
  dom (snd (run options w)) r = dom w r.
Proof.
  destruct (fst (nodesToProcess (optionsOrDefault options) w)) as [l | e] eqn:Hl.
  - intros H. destruct (run_calls options w l Hl) as (t & _ & _ & F).
    apply F. intros Hin. apply renderPlan_unmarked in Hin as [Hin Hm].
    destruct H as [H | H]; [exact (H Hin) | congruence].
  - intros _. destruct (run_unresolved options w e Hl) as (t & _ & _ & ->).
    reflexivity.
Qed.

(** An instance: element 3 of the sample document is in no working set. *)
Lemma run_leaves_other_elements_alone_witness :
  ~ In 3 [0; 1; 2]
  /\ dom (snd (@run sampleCollaborators None sampleWorld)) 3 = dom sampleWorld 3.
Proof.
  assert (H : ~ In 3 [0; 1; 2])
    by (intros [H | [H | [H | []]]]; discriminate H).
  split; [exact H|].
  apply (@run_leaves_other_elements_alone sampleCollaborators None sampleWorld 3).
  left. exact H.
Defined.



(* ===================================================================== *)
(** * The hook and the failures *)
(* ===================================================================== *)

Lemma hookEvents_app (t1 t2 : list Event) :
  hookEvents (t1 ++ t2) = hookEvents t1 ++ hookEvents t2.
Proof. apply filter_app. Qed.

Lemma hookEvents_hookCalls (h : option ParseErrorFunction) (e : JsValue) :
  hookEvents (hookCalls h e) = hookCalls h e.
Proof. destruct h, e; reflexivity. Qed.

Lemma hookEvents_cons (ev : Event) (t : list Event) :
  hookEvents (ev :: t) = (if isHookCall ev then [ev] else []) ++ hookEvents t.
Proof. unfold hookEvents. simpl. destruct (isHookCall ev); reflexivity. Qed.

Section Hooks.
Context {C : Collaborators}.
Variables (o : RunOptions) (g : nat -> string).

Lemma processElement_hooks (x : ref) (s : LoopState) (w : World) :
  exists s' t,
    fst (processElement o g x s w) = Normal s'
    /\ trace (snd (processElement o g x s w)) = trace w ++ t
    /\ hookEvents t = flat_map (hookCalls (parseError w)) (caught t).
Proof.
  unfold processElement, awaitRender, awaitCallback, callBind, setAttribute, setInnerHTML,
    modifyElement, getElement, getDocument, getParseError, log, emit, try_catch, bind, ret, throw.
  cbn [fst snd dom trace parseError].
  destruct (truthy_attr (data_processed (dom w x))) eqn:Hm.
  - cbn. exists s. eexists. split; [reflexivity|]. split; reflexivity.
  - cbn [fst snd dom trace parseError].
    unfold update. cbn [dom]. rewrite Nat.eqb_refl. cbn [innerHTML el_id data_processed].
    destruct (detectInit _) as [ini|]; cbn [fst snd dom trace parseError];
    (destruct (mermaidAPI_render _ _ _ _) as [rr|e]; cbn [fst snd dom trace parseError];
     [ destruct (postRenderCallback o) as [cb|]; cbn [fst snd dom trace parseError];
       [ destruct (cb _) as [e|]; cbn [fst snd dom trace parseError] | ];
       try (destruct (bindFunctions rr) as [bf|]; cbn [fst snd dom trace parseError];
            [ destruct (bf _) as [e'|]; cbn [fst snd dom trace parseError] | ])
     | ]);
    rewrite ?handleError_eq; cbn [fst snd dom trace parseError];
    norm_trace; eexists; eexists;
    (split; [reflexivity|]); (split; [reflexivity|]);
    rewrite !hookEvents_cons; cbn [isHookCall app caught flat_map];
    rewrite ?hookEvents_hookCalls, ?caught_hookCalls; cbn [flat_map];
    rewrite ?app_nil_r; reflexivity.
Qed.

Lemma forOf_hooks (l : list ref) (s : LoopState) (w : World) :
  exists s' t,
    fst (forOf l (processElement o g) s w) = Normal s'
    /\ trace (snd (forOf l (processElement o g) s w)) = trace w ++ t
    /\ parseError (snd (forOf l (processElement o g) s w)) = parseError w
    /\ hookEvents t = flat_map (hookCalls (parseError w)) (caught t).
Proof.
  revert s w. induction l as [| x l IH]; intros s w.
  - exists s, []. simpl. rewrite app_nil_r. auto.
  - cbn [forOf]. unfold bind.
    destruct (processElement_hooks x s w) as (s1 & t1 & E1 & T1 & H1).
    destruct (processElement_visit o g x s w) as (_ & P & _).
    destruct (processElement o g x s w) as [c w1]. cbn [fst snd] in *. subst c.
    destruct (IH s1 w1) as (s2 & t2 & E2 & T2 & P2 & H2).
    exists s2, (t1 ++ t2). split; [exact E2|].
    rewrite T2, T1, app_assoc. split; [reflexivity|].
    split; [congruence|].
    rewrite hookEvents_app, caught_app, flat_map_app, H1, H2, P. reflexivity.
Qed.
End Hooks.

(** X7.  Every failure goes through the hook.  Over a call of [run]
    started with the hook [h] registered, the hook is called once for each
    failure handed to [handleError], in order: with [(str, hash)] for a
    structured failure and with the failure itself otherwise; and once
    more at the end, with the value the pass threw, if it threw.  With no
    hook registered nothing is called. *)
Theorem hook_sees_every_failure {C : Collaborators}
        (options : option RunOptions) (w : World) :
  exists t,
    trace (snd (run options w)) = trace w ++ t
    /\ hookEvents t
       = flat_map (hookCalls (parseError w)) (caught t)
           ++ match fst (runThrowsErrors (Some (optionsOrDefault options)) w),
                    parseError w with
              | Throw e, Some h => [EvParseError h (AVal e) None]
              | _, _ => []
              end
    /\ (parseError w = None -> hookEvents t = []).
Proof.
  assert (Hpass : exists tp,
             trace (snd (runThrowsErrors (Some (optionsOrDefault options)) w))
             = trace w ++ tp
             /\ parseError (snd (runThrowsErrors (Some (optionsOrDefault options)) w))
                = parseError w
             /\ hookEvents tp = flat_map (hookCalls (parseError w)) (caught tp)).
  { destruct (fst (nodesToProcess (optionsOrDefault options) w)) as [l | e] eqn:Hl.
    - destruct (runThrowsErrors_scan _ w l Hl)
        as (w0 & pre & _ & Hp & T0 & _ & Hc & Hh & Hs & _).
      destruct (forOf_hooks (optionsOrDefault options) passGenerator l
                  (mkLoopState [] 0) w0) as (s' & t & _ & T & P & H).
      exists (pre ++ t). rewrite Hs. unfold scan.
      rewrite T, T0, P, Hp, <- app_assoc. split; [reflexivity|].
      split; [reflexivity|].
      rewrite hookEvents_app, caught_app, flat_map_app, Hh, Hc, H, Hp.
      reflexivity.
    - apply nodesToProcess_throws in Hl.
      rewrite (runThrowsErrors_unresolvable _ w Hl). cbn [snd trace parseError].
      eexists. split; [reflexivity|]. split; reflexivity. }
  destruct Hpass as (tp & Tp & Pp & Hp).
  assert (Hmain : exists t,
             trace (snd (run options w)) = trace w ++ t
             /\ hookEvents t
                = flat_map (hookCalls (parseError w)) (caught t)
                    ++ match fst (runThrowsErrors (Some (optionsOrDefault options)) w),
                             parseError w with
                       | Throw e, Some h => [EvParseError h (AVal e) None]
                       | _, _ => []
                       end).
  { destruct (runThrowsErrors (Some (optionsOrDefault options)) w)
      as [[a | e] w1] eqn:E; cbn [fst snd] in *.
    - rewrite (run_normal options w w1 a E). exists tp. cbn [snd].
      split; [exact Tp|]. rewrite Hp, app_nil_r. reflexivity.
    - destruct (run_catches options w w1 e E) as (_ & _ & _ & T).
      eexists. rewrite T, Tp, <- app_assoc. split; [reflexivity|].
      rewrite hookEvents_app, caught_app, flat_map_app, Hp, Pp.
      unfold wrapperEvents.
      destruct (asDetailedError e), (parseError w), (truthy_flag _);
        simpl; rewrite ?app_nil_r; reflexivity. }
  destruct Hmain as (t & T & H).
  exists t. split; [exact T|]. split; [exact H|].
  intros Hn. rewrite H, Hn.
  assert (Hnone : forall fs, flat_map (hookCalls None) fs = [])
    by (intros fs; induction fs; auto).
  rewrite Hnone.
  destruct (fst (runThrowsErrors (Some (optionsOrDefault options)) w));
    reflexivity.
Qed.

(* ===================================================================== *)
(** * The other entry points of the page *)
(* ===================================================================== *)




(* ===================================================================== *)
(** * The queue: what holds in every reachable state *)
(* ===================================================================== *)

Lemma engineCalls_app (t1 t2 : list Event) :
  engineCalls (t1 ++ t2) = engineCalls t1 ++ engineCalls t2.
Proof.
  induction t1 as [| ev t1 IH]; [reflexivity|].
  destruct ev; simpl; rewrite ?IH; reflexivity.
Qed.

Lemma engineCalls_settleHandlers (c : nat) (r : Settled string)
      (h : option ParseErrorFunction) :
  engineCalls (settleHandlers c r h) = [].
Proof. destruct r, h; reflexivity. Qed.

Lemma isCaller_self (u : Unit) : isCaller (caller u) u = true.
Proof. unfold isCaller. apply Nat.eqb_refl. Qed.

Lemma QueueInv_initial (d : Document) : QueueInv (initialQueue d).
Proof. repeat split. Qed.

Ltac queue_fields :=
  cbn [executionQueue world submitted inFlight settledCalls stalled followUps
       executionQueueRunning app trace dom parseError].

Lemma QueueInv_submit (op : Operation) (q : QueueState) :
  QueueInv q -> QueueInv (submit op q).
Proof.
  intros (F & N & E). unfold submit, executeQueue. cbn [executionQueueRunning].
  destruct (executionQueueRunning q) eqn:Hr.
  - unfold QueueInv. queue_fields.
    rewrite map_app, app_assoc, F, seq_S. simpl.
    split; [reflexivity|]. split; [exact N | discriminate].
  - rewrite (E eq_refl) in *. simpl in F.
    destruct (inFlight q) as [| u l]; [|simpl in N; lia].
    destruct (settledCalls q) as [| p l]; [|simpl in N; lia].
    unfold loopHead, setRunning, emitQ, QueueInv. queue_fields.
    rewrite engineCalls_app, map_app, seq_S. simpl.
    rewrite !app_nil_r in *. rewrite F.
    split; [reflexivity|]. split; [reflexivity | discriminate].
Qed.

Lemma QueueInv_engineSettles (c : nat) (r : Settled string) (q q' : QueueState) :
  QueueInv q -> engineSettles c r q = Some q' -> QueueInv q'.
Proof.
  intros (F & N & E). unfold engineSettles.
  destruct (find (isCaller c) (inFlight q)) as [u|] eqn:Hf; [|discriminate].
  destruct (existsb (isCaller c) (stalled q)); [discriminate|].
  intros H. inversion H; subst q'; clear H.
  destruct (inFlight q) as [| u1 [| u2 l]];
    [discriminate Hf | | simpl in N; destruct (executionQueueRunning q); lia].
  destruct (settledCalls q) as [| p l];
    [|simpl in N; destruct (executionQueueRunning q); lia].
  simpl in Hf. destruct (isCaller c u1) eqn:Hc; [|discriminate].
  unfold emitQ, QueueInv. queue_fields. cbn [filter].
  rewrite Hc, engineCalls_app, engineCalls_settleHandlers, app_nil_r.
  simpl in N |- *. auto.
Qed.

Lemma QueueInv_hookThrows (c : nat) (e : JsValue) (q q' : QueueState) :
  QueueInv q -> hookThrows c e q = Some q' -> QueueInv q'.
Proof.
  intros (F & N & E). unfold hookThrows.
  destruct (find (isCaller c) (inFlight q)) as [u|]; [|discriminate].
  destruct (parseError (world q)) as [f|]; [|discriminate].
  destruct (existsb (isCaller c) (stalled q)); [discriminate|].
  intros H. inversion H; subst q'; clear H.
  unfold emitQ, QueueInv. queue_fields.
  rewrite engineCalls_app. simpl. rewrite app_nil_r. auto.
Qed.

Lemma QueueInv_asyncSettles (c : nat) (q q' : QueueState) :
  QueueInv q -> asyncSettles c q = Some q' -> QueueInv q'.
Proof.
  intros (F & N & E). unfold asyncSettles.
  destruct (followUps q) as [| [c' r] rest]; [discriminate|].
  destruct (Nat.eqb c' c && _); [|discriminate].
  intros H. inversion H; subst q'; clear H.
  unfold emitQ, QueueInv. queue_fields.
  rewrite engineCalls_app.
  assert (Hn : engineCalls [match r with
                            | Fulfilled v => EvAsyncResolve c v
                            | Rejected e => EvAsyncReject c e
                            end] = []) by (destruct r; reflexivity).
  rewrite Hn, app_nil_r. auto.
Qed.

Lemma QueueInv_loopResumes (c : nat) (q q' : QueueState) :
  QueueInv q -> loopResumes c q = Some q' -> QueueInv q'.
Proof.
  intros (F & N & E). unfold loopResumes.
  destruct (find (fun p => isCaller c (fst p)) (settledCalls q))
    as [[u r]|] eqn:Hf; [|discriminate].
  intros H. inversion H; subst q'; clear H.
  destruct (settledCalls q) as [| p1 [| p2 l]];
    [discriminate Hf | | simpl in N; destruct (executionQueueRunning q); lia].
  destruct (inFlight q) as [| v l];
    [|simpl in N; destruct (executionQueueRunning q); lia].
  destruct (executionQueueRunning q) eqn:Hr; [|simpl in N; lia].
  simpl in Hf. destruct (isCaller c (fst p1)) eqn:Hc; [|discriminate].
  unfold loopHead, emitQ, setRunning, QueueInv. queue_fields. cbn [filter].
  rewrite Hc. cbn [negb].
  destruct (executionQueue q) as [| f rest] eqn:Hq; queue_fields.
  - rewrite engineCalls_app. destruct r; simpl; rewrite ?app_nil_r;
      rewrite app_nil_r in F; auto.
  - rewrite !engineCalls_app.
    assert (Hcaught : engineCalls
              match r with
              | Fulfilled _ => []
              | Rejected e => [EvLog Error [AStr "Error executing queue"; AVal e]]
              end = []) by (destruct r; reflexivity).
    rewrite Hcaught, app_nil_r, map_app, <- app_assoc. simpl in F |- *.
    rewrite F. split; [reflexivity|]. split; [reflexivity | discriminate].
Qed.

Lemma QueueInv_step (i : Input) (q q' : QueueState) :
  QueueInv q -> step i q = Some q' -> QueueInv q'.
Proof.
  destruct i as [op | c r | c | h | c e | c]; simpl; intros Hq H.
  - inversion H. apply QueueInv_submit. exact Hq.
  - eapply QueueInv_engineSettles; eauto.
  - eapply QueueInv_loopResumes; eauto.
  - inversion H. exact Hq.
  - eapply QueueInv_hookThrows; eauto.
  - eapply QueueInv_asyncSettles; eauto.
Qed.

Lemma QueueInv_exec (ins : list Input) (q q' : QueueState) :
  QueueInv q -> exec ins q = Some q' -> QueueInv q'.
Proof.
  revert q. induction ins as [| i ins IH]; simpl; intros q Hq H.
  - inversion H. subst. exact Hq.
  - destruct (step i q) as [q1|] eqn:Hs; [|discriminate].
    apply (IH q1); [|exact H]. eapply QueueInv_step; eauto.
Qed.

Lemma QueueInv_shape (q : QueueState) :
  QueueInv q ->
  (executionQueueRunning q = false /\ inFlight q = [] /\ settledCalls q = []
   /\ executionQueue q = [])
  \/ (executionQueueRunning q = true /\ settledCalls q = []
      /\ exists u, inFlight q = [u])
  \/ (executionQueueRunning q = true /\ inFlight q = []
      /\ exists u r, settledCalls q = [(u, r)]).
Proof.
  intros (_ & N & E).
  destruct (executionQueueRunning q).
  - right.
    destruct (inFlight q) as [| u [| u' l]], (settledCalls q) as [| [v r] [| p l']];
      simpl in N; try lia.
    + right. eauto.
    + left. eauto.
  - left.
    destruct (inFlight q) as [| u l], (settledCalls q) as [| p l'];
      simpl in N; try lia. auto.
Qed.

Lemma exec_app (i1 i2 : list Input) (q : QueueState) :
  exec (i1 ++ i2) q
  = match exec i1 q with
    | Some q1 => exec i2 q1
    | None => None
    end.
Proof.
  revert q. induction i1 as [| i i1 IH]; intros q; [reflexivity|].
  simpl. destruct (step i q); [apply IH | reflexivity].
Qed.

(** ** A unit the hook has cut short stays in flight *)

Lemma stalled_step (i : Input) (q q' : QueueState) :
  incl (stalled q) (inFlight q) -> step i q = Some q' ->
  incl (stalled q') (inFlight q').
Proof.
  intros Hs. destruct i as [op | c r | c | h | c e | c]; simpl; intros H.
  - inversion H; subst q'; clear H. unfold submit, executeQueue.
    cbn [executionQueueRunning].
    destruct (executionQueueRunning q); [exact Hs|].
    unfold loopHead, setRunning, emitQ. queue_fields.
    destruct (executionQueue q ++ _); queue_fields; [exact Hs|].
    intros v Hv. apply in_or_app. left. apply Hs. exact Hv.
  - unfold engineSettles in H.
    destruct (find (isCaller c) (inFlight q)) as [u|]; [|discriminate].
    destruct (existsb (isCaller c) (stalled q)) eqn:Hst; [discriminate|].
    inversion H; subst q'; clear H. unfold emitQ. queue_fields.
    intros v Hv. apply filter_In. split; [apply Hs; exact Hv|].
    destruct (isCaller c v) eqn:Hc; [|reflexivity].
    assert (Habs : existsb (isCaller c) (stalled q) = true)
      by (apply existsb_exists; eauto).
    congruence.
  - unfold loopResumes in H.
    destruct (find (fun p => isCaller c (fst p)) (settledCalls q))
      as [[u r]|]; [|discriminate].
    inversion H; subst q'; clear H. unfold loopHead, emitQ, setRunning.
    queue_fields. destruct (executionQueue q); queue_fields; [exact Hs|].
    intros v Hv. apply in_or_app. left. apply Hs. exact Hv.
  - inversion H; subst q'; clear H. exact Hs.
  - unfold hookThrows in H.
    destruct (find (isCaller c) (inFlight q)) as [u|] eqn:Hf; [|discriminate].
    destruct (parseError (world q)) as [f|]; [|discriminate].
    destruct (existsb (isCaller c) (stalled q)); [discriminate|].
    inversion H; subst q'; clear H. unfold emitQ. queue_fields.
    intros v Hv. apply in_app_or in Hv as [Hv | [<- | []]]; [apply Hs; exact Hv|].
    apply find_some in Hf. apply Hf.
  - unfold asyncSettles in H.
    destruct (followUps q) as [| [c' r] rest]; [discriminate|].
    destruct (Nat.eqb c' c && _); [|discriminate].
    inversion H; subst q'; clear H. exact Hs.
Qed.

Lemma stalled_exec (ins : list Input) (q q' : QueueState) :
  incl (stalled q) (inFlight q) -> exec ins q = Some q' ->
  incl (stalled q') (inFlight q').
Proof.
  revert q. induction ins as [| i ins IH]; simpl; intros q Hq H.
  - inversion H. subst. exact Hq.
  - destruct (step i q) as [q1|] eqn:Hs; [|discriminate].
    apply (IH q1); [|exact H]. eapply stalled_step; eauto.
Qed.

(** ** Letting the queue run dry *)

Lemma engineCalls_caughtLine (r : Settled string) :
  engineCalls (caughtLine r) = [].
Proof. destruct r; reflexivity. Qed.

Lemma loopResumes_single (l : list Unit) (b : bool) (u : Unit)
      (r : Settled string) (sub : nat) (w : World) (st : list Unit)
      (fu : list (nat * Settled string)) :
  loopResumes (caller u) (mkQueue l b [] [(u, r)] sub w st fu)
  = Some (loopHead (emitQ (caughtLine r) (mkQueue l b [] [] sub w st fu))).
Proof.
  unfold loopResumes. cbn [settledCalls find fst filter].
  rewrite isCaller_self. reflexivity.
Qed.

Lemma engineSettles_single (l : list Unit) (b : bool) (u : Unit)
      (r : Settled string) (sub : nat) (w : World)
      (fu : list (nat * Settled string)) :
  engineSettles (caller u) r (mkQueue l b [u] [] sub w [] fu)
  = Some (emitQ (settleHandlers (caller u) r (parseError w))
                (mkQueue l b [] [(u, r)] sub w []
                         (fu ++ if holdsAsyncPromise (operation u)
                                then [(caller u, r)] else []))).
Proof.
  unfold engineSettles. cbn [inFlight find filter stalled existsb].
  rewrite isCaller_self. reflexivity.
Qed.

Lemma followUps_run (l : list Unit) (b : bool) (fl : list Unit) (sub : nat)
      (d : Document) (h : option ParseErrorFunction) (st : list Unit)
      (fu : list (nat * Settled string)) (t : list Event) :
  exec (map (fun a => AsyncSettles (fst a)) fu)
       (mkQueue l b fl [] sub (mkWorld d h t) st fu)
  = Some (mkQueue l b fl [] sub (mkWorld d h (t ++ asyncEvents fu)) st []).
Proof.
  revert t. induction fu as [| [c r] fu IH]; intros t.
  - simpl. now rewrite app_nil_r.
  - cbn [map exec step fst]. unfold asyncSettles.
    cbn [followUps settledCalls existsb negb andb].
    rewrite Nat.eqb_refl. cbn [andb]. unfold emitQ. queue_fields.
    rewrite IH. unfold asyncEvents. cbn [map fst snd].
    rewrite <- app_assoc. reflexivity.
Qed.

Lemma asyncInputs_settle (u : Unit) (r : Settled string) :
  (if holdsAsyncPromise (operation u) then [AsyncSettles (caller u)] else [])
  = map (fun a => AsyncSettles (fst a))
        ([] ++ if holdsAsyncPromise (operation u) then [(caller u, r)] else []).
Proof. destruct (holdsAsyncPromise (operation u)); reflexivity. Qed.

Lemma drain_from_settled (answer : nat -> Settled string) (l : list Unit)
      (u : Unit) (r : Settled string) (sub : nat) (d : Document)
      (h : option ParseErrorFunction) (t : list Event)
      (fu : list (nat * Settled string)) :
  exists q',
    exec (LoopResumes (caller u)
            :: map (fun a => AsyncSettles (fst a)) fu
            ++ flat_map (settleAndResume answer) l)
         (mkQueue l true [] [(u, r)] sub (mkWorld d h t) [] fu) = Some q'
    /\ executionQueue q' = [] /\ executionQueueRunning q' = false
    /\ inFlight q' = [] /\ settledCalls q' = [] /\ submitted q' = sub
    /\ stalled q' = [] /\ followUps q' = [].
Proof.
  revert u r t fu. induction l as [| f rest IH]; intros u r t fu.
  - cbn [flat_map exec step]. rewrite loopResumes_single, app_nil_r.
    unfold loopHead, emitQ, setRunning. queue_fields.
    rewrite followUps_run.
    eexists. split; [reflexivity|]. repeat split.
  - cbn [flat_map exec step]. rewrite loopResumes_single.
    unfold loopHead, emitQ. queue_fields.
    rewrite exec_app, followUps_run.
    unfold settleAndResume at 1. rewrite <- !app_assoc.
    cbn [app exec step]. rewrite engineSettles_single.
    unfold emitQ. queue_fields.
    rewrite (asyncInputs_settle f (answer (caller f))).
    apply IH.
Qed.

Lemma drain_runs_dry (answer : nat -> Settled string) (q : QueueState) :
  QueueInv q -> stalled q = [] ->
  exists q',
    exec (drain answer q) q = Some q'
    /\ executionQueue q' = [] /\ executionQueueRunning q' = false
    /\ inFlight q' = [] /\ settledCalls q' = []
    /\ submitted q' = submitted q
    /\ stalled q' = [] /\ followUps q' = [].
Proof.
  intros Hq Hst.
  destruct (QueueInv_shape q Hq)
    as [(Hr & Hi & Hs & He) | [(Hr & Hs & u & Hi) | (Hr & Hi & u & r & Hs)]];
    unfold drain; rewrite Hi, Hs;
    destruct q as [l b fl sc sub [d h t] st fu];
    cbn [executionQueue world submitted inFlight settledCalls stalled
         followUps executionQueueRunning] in *; subst.
  - cbn [map flat_map app]. rewrite app_nil_r, followUps_run.
    eexists. split; [reflexivity|]. repeat split.
  - cbn [map flat_map app]. rewrite app_nil_r.
    rewrite exec_app, followUps_run.
    unfold settleAndResume at 1. rewrite <- !app_assoc.
    cbn [app exec step]. rewrite engineSettles_single.
    unfold emitQ. queue_fields.
    rewrite (asyncInputs_settle u (answer (caller u))).
    apply drain_from_settled.
  - cbn [map flat_map app fst]. apply drain_from_settled.
Qed.

(* ===================================================================== *)
(** * The schedule of the queue *)
(* ===================================================================== *)

Lemma schedule_app (t1 t2 : list Event) :
  schedule (t1 ++ t2) = schedule t1 ++ schedule t2.
Proof.
  induction t1 as [| ev t1 IH]; [reflexivity|].
  destruct ev; simpl; rewrite ?IH; reflexivity.
Qed.

Lemma schedule_settleHandlers (c : nat) (r : Settled string)
      (h : option ParseErrorFunction) :
  schedule (settleHandlers c r h) = [Done c r].
Proof. destruct r, h; reflexivity. Qed.

Lemma schedule_caughtLine (r : Settled string) : schedule (caughtLine r) = [].
Proof. destruct r; reflexivity. Qed.

Lemma schedule_asyncEvents (fu : list (nat * Settled string)) :
  schedule (asyncEvents fu) = [].
Proof. induction fu as [| [c [v | e]] fu IH]; simpl; auto. Qed.

Lemma oneByOne_app (a1 a2 : list (nat * Settled string)) :
  oneByOne (a1 ++ a2) = oneByOne a1 ++ oneByOne a2.
Proof. apply flat_map_app. Qed.

Lemma ScheduleInv_step (i : Input) (answers : list (nat * Settled string))
      (q q' : QueueState) :
  QueueInv q -> ScheduleInv answers q -> step i q = Some q' ->
  ScheduleInv (answers ++ engineAnswers [i]) q'.
Proof.
  intros Hq Hs Hstep. pose proof Hq as (_ & _ & E). unfold ScheduleInv in *.
  destruct i as [op | c r' | c | h | c e | c]; cbn [step engineAnswers] in Hstep |- *;
    rewrite ?app_nil_r.
  - inversion Hstep; subst q'; clear Hstep. unfold submit, executeQueue.
    cbn [executionQueueRunning].
    destruct (executionQueueRunning q) eqn:Hr; [exact Hs|].
    destruct (QueueInv_shape q Hq)
      as [(_ & Hi & _ & He) | [(Hr' & _) | (Hr' & _)]]; try congruence.
    unfold loopHead, setRunning, emitQ. queue_fields. rewrite He, Hi.
    queue_fields. rewrite schedule_app, Hs, Hi. cbn [map schedule caller].
    now rewrite app_nil_r.
  - unfold engineSettles in Hstep.
    destruct (find (isCaller c) (inFlight q)) as [u|] eqn:Hf; [|discriminate].
    destruct (existsb (isCaller c) (stalled q)); [discriminate|].
    inversion Hstep; subst q'; clear Hstep.
    destruct (QueueInv_shape q Hq)
      as [(_ & Hi & _) | [(_ & _ & u' & Hi) | (_ & Hi & _)]];
      rewrite Hi in Hf; try discriminate Hf.
    cbn [find] in Hf. destruct (isCaller c u') eqn:Hc; [|discriminate].
    unfold emitQ. queue_fields. rewrite Hi. cbn [filter]. rewrite Hc.
    cbn [negb map].
    rewrite schedule_app, schedule_settleHandlers, Hs, oneByOne_app, Hi.
    unfold isCaller in Hc. apply Nat.eqb_eq in Hc. subst c.
    cbn. rewrite !app_nil_r, <- app_assoc. reflexivity.
  - unfold loopResumes in Hstep.
    destruct (find (fun p => isCaller c (fst p)) (settledCalls q))
      as [[u r]|] eqn:Hf; [|discriminate].
    inversion Hstep; subst q'; clear Hstep.
    destruct (QueueInv_shape q Hq)
      as [(_ & _ & Hsc & _) | [(_ & Hsc & _) | (_ & Hi & _)]];
      try (rewrite Hsc in Hf; discriminate Hf).
    unfold loopHead, emitQ, setRunning. queue_fields. rewrite Hi in *.
    fold (caughtLine r).
    destruct (executionQueue q) as [| f rest]; queue_fields;
      rewrite !schedule_app, ?schedule_caughtLine, Hs, ?app_nil_r; reflexivity.
  - inversion Hstep; subst q'. exact Hs.
  - unfold hookThrows in Hstep.
    destruct (find (isCaller c) (inFlight q)) as [u|]; [|discriminate].
    destruct (parseError (world q)) as [f|]; [|discriminate].
    destruct (existsb (isCaller c) (stalled q)); [discriminate|].
    inversion Hstep; subst q'; clear Hstep. unfold emitQ. queue_fields.
    rewrite schedule_app, Hs. simpl. now rewrite app_nil_r.
  - unfold asyncSettles in Hstep.
    destruct (followUps q) as [| [c' r] rest]; [discriminate|].
    destruct (Nat.eqb c' c && _); [|discriminate].
    inversion Hstep; subst q'; clear Hstep. unfold emitQ. queue_fields.
    rewrite schedule_app, Hs.
    change [match r with
            | Fulfilled v => EvAsyncResolve c v
            | Rejected e => EvAsyncReject c e
            end] with (asyncEvents [(c, r)]).
    rewrite schedule_asyncEvents. now rewrite app_nil_r.
Qed.

Lemma engineAnswers_app (i1 i2 : list Input) :
  engineAnswers (i1 ++ i2) = engineAnswers i1 ++ engineAnswers i2.
Proof.
  induction i1 as [| i i1 IH]; [reflexivity|].
  destruct i; simpl; rewrite ?IH; reflexivity.
Qed.

Lemma ScheduleInv_exec (ins : list Input) (answers : list (nat * Settled string))
      (q q' : QueueState) :
  QueueInv q -> ScheduleInv answers q -> exec ins q = Some q' ->
  ScheduleInv (answers ++ engineAnswers ins) q'.
Proof.
  revert answers q. induction ins as [| i ins IH]; intros answers q Hq Hs H.
  - simpl in *. inversion H; subst. now rewrite app_nil_r.
  - simpl in H. destruct (step i q) as [q1|] eqn:Hstep; [|discriminate].
    change (i :: ins) with ([i] ++ ins).
    rewrite engineAnswers_app, app_assoc.
    apply (IH _ q1); [eapply QueueInv_step; eauto | | exact H].
    eapply ScheduleInv_step; eauto.
Qed.

Lemma startedCallers_app (m1 m2 : list Mark) :
  startedCallers (m1 ++ m2) = startedCallers m1 ++ startedCallers m2.
Proof.
  induction m1 as [| [c | c r] m1 IH]; simpl; rewrite ?IH; reflexivity.
Qed.

Lemma startedCallers_schedule (t : list Event) :
  startedCallers (schedule t) = map caller (engineCalls t).
Proof.
  induction t as [| ev t IH]; [reflexivity|].
  destruct ev; simpl; rewrite ?IH; reflexivity.
Qed.

Lemma startedCallers_oneByOne (answers : list (nat * Settled string)) :
  startedCallers (oneByOne answers) = map fst answers.
Proof.
  induction answers as [| a answers IH]; [reflexivity|].
  simpl. now rewrite IH.
Qed.

Lemma startedCallers_inFlight (l : list Unit) :
  startedCallers (map (fun u => Started (caller u)) l) = map caller l.
Proof. induction l as [| u l IH]; simpl; rewrite ?IH; reflexivity. Qed.

Lemma seq_prefix (l1 l2 : list nat) (a n : nat) :
  l1 ++ l2 = seq a n -> l1 = seq a (List.length l1).
Proof.
  revert a n. induction l1 as [| x l1 IH]; intros a n H; [reflexivity|].
  destruct n as [| n]; simpl in H; [discriminate|].
  inversion H; subst. simpl. f_equal. eapply IH. eassumption.
Qed.

Lemma engineAnswers_drain (answer : nat -> Settled string) (q : QueueState) :
  engineAnswers (drain answer q)
  = map (fun u => (caller u, answer (caller u))) (inFlight q ++ executionQueue q).
Proof.
  unfold drain. rewrite !engineAnswers_app, map_app.
  assert (H1 : forall l : list (Unit * Settled string),
             engineAnswers (map (fun p => LoopResumes (caller (fst p))) l) = [])
    by (induction l; auto).
  assert (H2 : forall l,
             engineAnswers (flat_map (settleAndResume answer) l)
             = map (fun u => (caller u, answer (caller u))) l).
  { induction l as [| u l IH]; [reflexivity|].
    cbn [flat_map map]. rewrite engineAnswers_app, IH.
    unfold settleAndResume. destruct (holdsAsyncPromise (operation u));
      reflexivity. }
  assert (H3 : forall l : list (nat * Settled string),
             engineAnswers (map (fun a => AsyncSettles (fst a)) l) = [])
    by (induction l; auto).
  now rewrite H1, H3, !H2.
Qed.

(** ** The promises of [parse] *)

Lemma asyncSettled_app (t1 t2 : list Event) :
  asyncSettled (t1 ++ t2) = asyncSettled t1 ++ asyncSettled t2.
Proof.
  induction t1 as [| ev t1 IH]; [reflexivity|].
  destruct ev; simpl; rewrite ?IH; reflexivity.
Qed.

Lemma asyncSettled_asyncEvents (fu : list (nat * Settled string)) :
  asyncSettled (asyncEvents fu) = fu.
Proof.
  induction fu as [| [c [v | e]] fu IH]; simpl; rewrite ?IH; reflexivity.
Qed.

Lemma asyncSettled_settleHandlers (c : nat) (r : Settled string)
      (h : option ParseErrorFunction) :
  asyncSettled (settleHandlers c r h) = [].
Proof. destruct r, h; reflexivity. Qed.

Lemma asyncSettled_caughtLine (r : Settled string) :
  asyncSettled (caughtLine r) = [].
Proof. destruct r; reflexivity. Qed.

Lemma unitsFrom_app (k : nat) (ops1 ops2 : list Operation) :
  unitsFrom k (ops1 ++ ops2)
  = unitsFrom k ops1 ++ unitsFrom (k + List.length ops1) ops2.
Proof.
  revert k. induction ops1 as [| op ops1 IH]; intros k; simpl.
  - now rewrite Nat.add_0_r.
  - rewrite IH. do 3 f_equal. lia.
Qed.

Lemma unitsFrom_nth (k : nat) (ops : list Operation) (u : Unit) :
  In u (unitsFrom k ops) ->
  k <= caller u /\ nth_error ops (caller u - k) = Some (operation u).
Proof.
  revert k. induction ops as [| op ops IH]; intros k; simpl; [intros []|].
  intros [<- | H]; simpl.
  - rewrite Nat.sub_diag. auto.
  - apply IH in H as [H1 H2]. split; [lia|].
    replace (caller u - k) with (S (caller u - S k)) by lia. exact H2.
Qed.

Lemma operations_app (i1 i2 : list Input) :
  operations (i1 ++ i2) = operations i1 ++ operations i2.
Proof.
  induction i1 as [| i i1 IH]; [reflexivity|].
  destruct i; simpl; rewrite ?IH; reflexivity.
Qed.

Lemma UnitsInv_caller (ops : list Operation) (q : QueueState) (u : Unit) :
  UnitsInv ops q -> In u (inFlight q) ->
  caller u < List.length ops
  /\ asyncCaller ops (caller u) = holdsAsyncPromise (operation u).
Proof.
  intros (U & _ & I) Hin.
  assert (Hu : In u (unitsFrom 0 ops))
    by (rewrite <- U; apply in_or_app; left; apply I; exact Hin).
  apply unitsFrom_nth in Hu as [_ Hn]. rewrite Nat.sub_0_r in Hn.
  split; [apply nth_error_Some; congruence|].
  unfold asyncCaller. now rewrite Hn.
Qed.

Lemma UnitsInv_step (i : Input) (ops : list Operation) (q q' : QueueState) :
  QueueInv q -> UnitsInv ops q -> step i q = Some q' ->
  UnitsInv (ops ++ operations [i]) q'.
Proof.
  intros Hq (U & S & I) Hstep. pose proof Hq as (_ & _ & E). unfold UnitsInv.
  destruct i as [op | c r' | c | h | c e | c]; cbn [step operations] in Hstep |- *;
    rewrite ?app_nil_r.
  - inversion Hstep; subst q'; clear Hstep. unfold submit, executeQueue.
    cbn [executionQueueRunning].
    rewrite unitsFrom_app, length_app, <- U, <- S. cbn [unitsFrom List.length].
    destruct (executionQueueRunning q) eqn:Hr.
    + queue_fields. rewrite app_assoc.
      split; [reflexivity|]. split; [lia | exact I].
    + unfold loopHead, setRunning, emitQ. queue_fields. rewrite (E eq_refl).
      queue_fields. rewrite engineCalls_app, !app_nil_r. cbn [engineCalls].
      split; [reflexivity|]. split; [lia|].
      intros u Hu. apply in_app_or in Hu. apply in_or_app.
      destruct Hu as [Hu | Hu]; [left; apply I; exact Hu | right; exact Hu].
  - unfold engineSettles in Hstep.
    destruct (find (isCaller c) (inFlight q)) as [u|]; [|discriminate].
    destruct (existsb (isCaller c) (stalled q)); [discriminate|].
    inversion Hstep; subst q'; clear Hstep. unfold emitQ. queue_fields.
    rewrite engineCalls_app, engineCalls_settleHandlers, app_nil_r.
    split; [exact U|]. split; [exact S|].
    intros v Hv. apply filter_In in Hv as [Hv _]. apply I. exact Hv.
  - unfold loopResumes in Hstep.
    destruct (find (fun p => isCaller c (fst p)) (settledCalls q))
      as [[u r]|]; [|discriminate].
    inversion Hstep; subst q'; clear Hstep.
    unfold loopHead, emitQ, setRunning. queue_fields. fold (caughtLine r).
    destruct (executionQueue q) as [| f rest]; queue_fields;
      rewrite !engineCalls_app, ?engineCalls_caughtLine, ?app_nil_r.
    + rewrite app_nil_r in U. auto.
    + cbn [engineCalls]. rewrite <- app_assoc. cbn [app].
      split; [exact U|]. split; [exact S|].
      intros u' Hu. apply in_app_or in Hu. apply in_or_app.
      destruct Hu as [Hu | Hu]; [left; apply I; exact Hu | right; exact Hu].
  - inversion Hstep; subst q'. auto.
  - unfold hookThrows in Hstep.
    destruct (find (isCaller c) (inFlight q)) as [u|]; [|discriminate].
    destruct (parseError (world q)) as [f|]; [|discriminate].
    destruct (existsb (isCaller c) (stalled q)); [discriminate|].
    inversion Hstep; subst q'; clear Hstep. unfold emitQ. queue_fields.
    rewrite engineCalls_app. simpl. rewrite app_nil_r. auto.
  - unfold asyncSettles in Hstep.
    destruct (followUps q) as [| [c' r] rest]; [discriminate|].
    destruct (Nat.eqb c' c && _); [|discriminate].
    inversion Hstep; subst q'; clear Hstep. unfold emitQ. queue_fields.
    rewrite engineCalls_app.
    assert (Hn : engineCalls [match r with
                              | Fulfilled v => EvAsyncResolve c v
                              | Rejected e => EvAsyncReject c e
                              end] = []) by (destruct r; reflexivity).
    rewrite Hn, app_nil_r. auto.
Qed.

Lemma asyncCaller_app (ops1 ops2 : list Operation) (c : nat) :
  c < List.length ops1 -> asyncCaller (ops1 ++ ops2) c = asyncCaller ops1 c.
Proof. intros H. unfold asyncCaller. now rewrite nth_error_app1. Qed.

Lemma AsyncInv_step (i : Input) (ops : list Operation)
      (answers : list (nat * Settled string)) (q q' : QueueState) :
  UnitsInv ops q -> AsyncInv ops answers q -> step i q = Some q' ->
  AsyncInv (ops ++ operations [i]) (answers ++ engineAnswers [i]) q'.
Proof.
  intros HU (A & B) Hstep. unfold AsyncInv.
  destruct i as [op | c r' | c | h | c e | c];
    cbn [step operations engineAnswers] in Hstep |- *; rewrite ?app_nil_r.
  - inversion Hstep; subst q'; clear Hstep.
    assert (Hf : filter (fun a => asyncCaller (ops ++ [op]) (fst a)) answers
                 = filter (fun a => asyncCaller ops (fst a)) answers).
    { apply filter_ext_in. intros a Ha. apply asyncCaller_app.
      rewrite Forall_forall in B. apply B. exact Ha. }
    rewrite Hf. split.
    + rewrite <- A. unfold submit, executeQueue. cbn [executionQueueRunning].
      destruct (executionQueueRunning q); [reflexivity|].
      unfold loopHead, setRunning, emitQ. queue_fields.
      destruct (executionQueue q ++ _); queue_fields; [reflexivity|].
      rewrite asyncSettled_app. simpl. now rewrite app_nil_r.
    + rewrite length_app. eapply Forall_impl; [|exact B].
      simpl. intros a Ha. lia.
  - unfold engineSettles in Hstep.
    destruct (find (isCaller c) (inFlight q)) as [u|] eqn:Hf; [|discriminate].
    destruct (existsb (isCaller c) (stalled q)); [discriminate|].
    inversion Hstep; subst q'; clear Hstep. unfold emitQ. queue_fields.
    apply find_some in Hf as [Hin Hc].
    unfold isCaller in Hc. apply Nat.eqb_eq in Hc.
    destruct (UnitsInv_caller ops q u HU Hin) as [Hlt Ha]. rewrite Hc in *.
    rewrite asyncSettled_app, asyncSettled_settleHandlers, app_nil_r,
      filter_app, app_assoc, A. cbn [filter fst]. rewrite Ha. split.
    + destruct (holdsAsyncPromise (operation u)); reflexivity.
    + apply Forall_app. split; [exact B|]. constructor; [exact Hlt | constructor].
  - unfold loopResumes in Hstep.
    destruct (find (fun p => isCaller c (fst p)) (settledCalls q))
      as [[u r]|]; [|discriminate].
    inversion Hstep; subst q'; clear Hstep.
    unfold loopHead, emitQ, setRunning. queue_fields. fold (caughtLine r).
    split; [|exact B]. rewrite <- A.
    destruct (executionQueue q) as [| f rest]; queue_fields;
      rewrite !asyncSettled_app, ?asyncSettled_caughtLine, ?app_nil_r;
      reflexivity.
  - inversion Hstep; subst q'. auto.
  - unfold hookThrows in Hstep.
    destruct (find (isCaller c) (inFlight q)) as [u|]; [|discriminate].
    destruct (parseError (world q)) as [f|]; [|discriminate].
    destruct (existsb (isCaller c) (stalled q)); [discriminate|].
    inversion Hstep; subst q'; clear Hstep. unfold emitQ. queue_fields.
    rewrite asyncSettled_app. simpl. rewrite app_nil_r. auto.
  - unfold asyncSettles in Hstep.
    destruct (followUps q) as [| [c' r] rest] eqn:Hfu; [discriminate|].
    destruct (Nat.eqb c' c) eqn:Hc; [|discriminate].
    destruct (negb _); [|discriminate].
    apply Nat.eqb_eq in Hc. subst c'.
    inversion Hstep; subst q'; clear Hstep. unfold emitQ. queue_fields.
    split; [|exact B]. rewrite <- A, asyncSettled_app, <- app_assoc.
    f_equal. destruct r; reflexivity.
Qed.

Lemma Async_exec (ins : list Input) (ops : list Operation)
      (answers : list (nat * Settled string)) (q q' : QueueState) :
  QueueInv q -> UnitsInv ops q -> AsyncInv ops answers q ->
  exec ins q = Some q' ->
  UnitsInv (ops ++ operations ins) q'
  /\ AsyncInv (ops ++ operations ins) (answers ++ engineAnswers ins) q'.
Proof.
  revert ops answers q.
  induction ins as [| i ins IH]; intros ops answers q Hq HU HA H.
  - simpl in *. inversion H; subst. rewrite !app_nil_r. auto.
  - simpl in H. destruct (step i q) as [q1|] eqn:Hstep; [|discriminate].
    change (i :: ins) with ([i] ++ ins).
    rewrite engineAnswers_app, operations_app, !app_assoc.
    apply (IH _ _ q1); [eapply QueueInv_step; eauto | | | exact H].
    + eapply UnitsInv_step; eauto.
    + eapply AsyncInv_step; eauto.
Qed.

Lemma Async_initial (d : Document) :
  UnitsInv [] (initialQueue d) /\ AsyncInv [] [] (initialQueue d).
Proof.
  split; [repeat split; intros u [] | split; [reflexivity | constructor]].
Qed.

(** ** A queue that is stuck stays stuck *)

Lemma Stuck_step (i : Input) (q q' : QueueState) :
  Stuck q -> step i q = Some q' ->
  Stuck q'
  /\ schedule (trace (world q')) = schedule (trace (world q))
  /\ exists l, executionQueue q' = executionQueue q ++ l.
Proof.
  intros (Hr & Hsc & u & Hi & Hst).
  destruct i as [op | c r | c | h | c e | c]; simpl; intros H.
  - inversion H; subst q'; clear H. unfold submit, executeQueue.
    cbn [executionQueueRunning]. rewrite Hr. unfold Stuck. queue_fields.
    repeat split; eauto.
  - unfold engineSettles in H. rewrite Hi, Hst in H. cbn [find existsb] in H.
    destruct (isCaller c u); discriminate H.
  - unfold loopResumes in H. rewrite Hsc in H. discriminate H.
  - inversion H; subst q'; clear H. unfold Stuck. queue_fields.
    repeat split; eauto. exists []. now rewrite app_nil_r.
  - unfold hookThrows in H. rewrite Hi, Hst in H. cbn [find existsb] in H.
    destruct (isCaller c u); [|discriminate H].
    destruct (parseError (world q)); discriminate H.
  - unfold asyncSettles in H.
    destruct (followUps q) as [| [c' r] rest]; [discriminate|].
    destruct (Nat.eqb c' c && _); [|discriminate].
    inversion H; subst q'; clear H. unfold Stuck, emitQ. queue_fields.
    split; [eauto|]. split; [|exists []; now rewrite app_nil_r].
    rewrite schedule_app.
    change [match r with
            | Fulfilled v => EvAsyncResolve c v
            | Rejected e => EvAsyncReject c e
            end] with (asyncEvents [(c, r)]).
    rewrite schedule_asyncEvents. now rewrite app_nil_r.
Qed.

Lemma Stuck_exec (ins : list Input) (q q' : QueueState) :
  Stuck q -> exec ins q = Some q' ->
  Stuck q'
  /\ schedule (trace (world q')) = schedule (trace (world q))
  /\ exists l, executionQueue q' = executionQueue q ++ l.
Proof.
  revert q. induction ins as [| i ins IH]; simpl; intros q Hq H.
  - inversion H; subst. split; [exact Hq|]. split; [reflexivity|].
    exists []. now rewrite app_nil_r.
  - destruct (step i q) as [q1|] eqn:Hs; [|discriminate].
    destruct (Stuck_step i q q1 Hq Hs) as (S1 & T1 & l1 & L1).
    destruct (IH q1 S1 H) as (S2 & T2 & l2 & L2).
    split; [exact S2|]. split; [congruence|].
    exists (l1 ++ l2). rewrite L2, L1, app_assoc. reflexivity.
Qed.

(* ===================================================================== *)
(** * The queue and the hook *)
(* ===================================================================== *)

Lemma hookEvents_settleHandlers (c : nat) (r : Settled string)
      (h : option ParseErrorFunction) :
  hookEvents (settleHandlers c r h) = queueHookCalls h [EngineSettles c r].
Proof. destruct r as [v | e]; destruct h as [f |]; reflexivity. Qed.

Lemma hookEvents_caughtLine (r : Settled string) : hookEvents (caughtLine r) = [].
Proof. destruct r; reflexivity. Qed.

Lemma loopHead_hooks (q : QueueState) :
  hookEvents (trace (world (loopHead q))) = hookEvents (trace (world q))
  /\ parseError (world (loopHead q)) = parseError (world q).
Proof.
  unfold loopHead. destruct (executionQueue q) as [| f rest]; simpl.
  - split; reflexivity.
  - rewrite hookEvents_app. simpl. rewrite app_nil_r. split; reflexivity.
Qed.

Lemma step_hooks (i : Input) (q q' : QueueState) :
  step i q = Some q' ->
  hookEvents (trace (world q'))
  = hookEvents (trace (world q)) ++ queueHookCalls (parseError (world q)) [i]
  /\ parseError (world q') = handlerAfter (parseError (world q)) [i].
Proof.
  destruct i as [op | c r | c | h | c e | c]; simpl; intros H.
  - inversion H; subst; clear H. unfold submit, executeQueue. simpl.
    destruct (executionQueueRunning q); simpl.
    + rewrite app_nil_r. split; reflexivity.
    + match goal with |- context [loopHead ?x] =>
        destruct (loopHead_hooks x) as (A & B) end.
      rewrite A, B. simpl. rewrite app_nil_r. split; reflexivity.
  - unfold engineSettles in H.
    destruct (find (isCaller c) (inFlight q)) as [u |]; [|discriminate].
    destruct (existsb (isCaller c) (stalled q)); [discriminate|].
    inversion H; subst; clear H. simpl.
    rewrite hookEvents_app, hookEvents_settleHandlers. split; [|reflexivity].
    destruct r; reflexivity.
  - unfold loopResumes in H.
    destruct (find (fun p => isCaller c (fst p)) (settledCalls q)) as [[u r] |];
      [|discriminate].
    inversion H; subst; clear H.
    match goal with |- context [loopHead ?x] =>
      destruct (loopHead_hooks x) as (A & B) end.
    rewrite A, B. simpl. rewrite hookEvents_app.
    change (hookEvents match r with
                       | Fulfilled _ => []
                       | Rejected e => [EvLog Error [AStr "Error executing queue"; AVal e]]
                       end) with (hookEvents (caughtLine r)).
    rewrite hookEvents_caughtLine. split; reflexivity.
  - inversion H; subst; clear H. simpl. rewrite app_nil_r. split; reflexivity.
  - unfold hookThrows in H.
    destruct (find (isCaller c) (inFlight q)) as [u |]; [|discriminate].
    destruct (parseError (world q)) as [f|] eqn:Hp; [|discriminate].
    destruct (existsb (isCaller c) (stalled q)); [discriminate|].
    inversion H; subst; clear H. simpl. rewrite Hp.
    rewrite hookEvents_app. split; reflexivity.
  - unfold asyncSettles in H.
    destruct (followUps q) as [| [c' r] rest]; [discriminate|].
    destruct (Nat.eqb c' c && _); [|discriminate].
    inversion H; subst; clear H. simpl. rewrite hookEvents_app.
    destruct r; simpl; rewrite !app_nil_r; split; reflexivity.
Qed.

Lemma queueHookCalls_cons (h : option ParseErrorFunction) (i : Input)
      (ins : list Input) :
  queueHookCalls h (i :: ins)
  = queueHookCalls h [i] ++ queueHookCalls (handlerAfter h [i]) ins.
Proof.
  destruct i as [op | c [v | e] | c | h' | c e | c]; simpl; rewrite ?app_nil_r;
    reflexivity.
Qed.

Lemma handlerAfter_cons (h : option ParseErrorFunction) (i : Input)
      (ins : list Input) :
  handlerAfter h (i :: ins) = handlerAfter (handlerAfter h [i]) ins.
Proof. destruct i; reflexivity. Qed.

Lemma exec_hooks (ins : list Input) (q q' : QueueState) :
  exec ins q = Some q' ->
  hookEvents (trace (world q'))
  = hookEvents (trace (world q)) ++ queueHookCalls (parseError (world q)) ins
  /\ parseError (world q') = handlerAfter (parseError (world q)) ins.
Proof.
  revert q. induction ins as [| i ins IH]; intros q H.
  - simpl in *. inversion H; subst. rewrite app_nil_r. split; reflexivity.
  - simpl in H. destruct (step i q) as [q1 |] eqn:Hstep; [|discriminate].
    destruct (step_hooks i q q1 Hstep) as (A & B).
    destruct (IH q1 H) as (A' & B').
    rewrite (handlerAfter_cons _ i ins), queueHookCalls_cons, A', B', A, B,
      app_assoc.
    split; reflexivity.
Qed.

Lemma oneByOne_In (answers : list (nat * Settled string)) (c : nat)
      (r : Settled string) :
  In (c, r) answers -> In (Done c r) (oneByOne answers).
Proof.
  induction answers as [| a answers IH]; [intros []|].
  intros [-> | H]; simpl; auto.
Qed.

(* ===================================================================== *)
(** * The serialized operation queue *)
(* ===================================================================== *)

(** C1.  In every state the queue can reach from start-up, whatever the
    interleaving of submissions, settlements and resumptions:
    - the engine calls made so far, followed by the pending units, are the
      submitted units in submission order, so units are executed first in,
      first out;
    - at most one engine call is in flight, and while the flag is set the
      loop waits for exactly one unit;
    - nothing is pending while the flag is clear;
    - a submission made while the flag is set only appends its unit: no
      second loop starts;
    - a submission made while the flag is clear sets the flag and starts
      the loop, which calls that unit at once: this is how the loop starts
      and starts again after it has stopped;
    - the flag is cleared by the loop alone, when it comes back from a unit
      and finds the pending sequence empty, and in that case always. *)
Theorem queue_is_fifo_and_single_flight
        (d : Document) (ins : list Input) (q : QueueState) :
  exec ins (initialQueue d) = Some q ->
  map caller (engineCalls (trace (world q))) ++ map caller (executionQueue q)
  = seq 0 (submitted q)
  /\ List.length (inFlight q) <= 1
  /\ List.length (inFlight q) + List.length (settledCalls q)
     = (if executionQueueRunning q then 1 else 0)
  /\ (executionQueueRunning q = false -> executionQueue q = [])
  /\ (forall op,
         executionQueueRunning q = true ->
         submit op q
         = mkQueue (executionQueue q ++ [mkUnit (submitted q) op]) true
                   (inFlight q) (settledCalls q) (S (submitted q)) (world q)
                   (stalled q) (followUps q))
  /\ (forall op,
         executionQueueRunning q = false ->
         executionQueueRunning (submit op q) = true
         /\ executionQueue (submit op q) = []
         /\ inFlight (submit op q) = [mkUnit (submitted q) op]
         /\ trace (world (submit op q))
            = trace (world q) ++ [EvEngineCall (mkUnit (submitted q) op)])
  /\ (forall i q',
         step i q = Some q' ->
         executionQueueRunning q = true ->
         (executionQueueRunning q' = false
          <-> (exists c, i = LoopResumes c) /\ executionQueue q = [])).
Proof.
  intros Hex.
  pose proof (QueueInv_exec ins _ q (QueueInv_initial d) Hex) as Hq.
  pose proof Hq as (F & N & E).
  split; [exact F|]. split; [destruct (executionQueueRunning q); lia|].
  split; [exact N|]. split; [exact E|]. split; [|split].
  - intros op Hr. unfold submit, executeQueue.
    cbn [executionQueueRunning]. rewrite Hr. reflexivity.
  - intros op Hr. unfold submit, executeQueue.
    cbn [executionQueueRunning]. rewrite Hr, (E Hr).
    destruct (QueueInv_shape q Hq)
      as [(_ & Hi & _ & _) | [(Hr' & _) | (Hr' & _)]]; try congruence.
    unfold loopHead, setRunning, emitQ. queue_fields.
    rewrite Hi. auto.
  - intros i q' Hs Hr.
    destruct i as [op | c r | c | h | c e | c]; simpl in Hs.
    + inversion Hs; subst q'. unfold submit, executeQueue.
      cbn [executionQueueRunning]. rewrite Hr. cbn [executionQueueRunning].
      split; [discriminate|]. intros [[c Hc] _]. discriminate Hc.
    + unfold engineSettles in Hs.
      destruct (find (isCaller c) (inFlight q)); [|discriminate].
      destruct (existsb (isCaller c) (stalled q)); [discriminate|].
      inversion Hs; subst q'. cbn [emitQ executionQueueRunning]. rewrite Hr.
      split; [discriminate|]. intros [[c' Hc] _]. discriminate Hc.
    + unfold loopResumes in Hs.
      destruct (find (fun p => isCaller c (fst p)) (settledCalls q))
        as [[u r]|]; [|discriminate].
      inversion Hs; subst q'. unfold loopHead, emitQ, setRunning.
      cbn [executionQueue executionQueueRunning].
      destruct (executionQueue q) as [| f rest];
        cbn [executionQueueRunning].
      * split; [eauto | reflexivity].
      * rewrite Hr. split; [discriminate|]. intros [_ Habs]. discriminate Habs.
    + inversion Hs; subst q'. cbn [executionQueueRunning]. rewrite Hr.
      split; [discriminate|]. intros [[c Hc] _]. discriminate Hc.
    + unfold hookThrows in Hs.
      destruct (find (isCaller c) (inFlight q)); [|discriminate].
      destruct (parseError (world q)); [|discriminate].
      destruct (existsb (isCaller c) (stalled q)); [discriminate|].
      inversion Hs; subst q'. cbn [emitQ executionQueueRunning]. rewrite Hr.
      split; [discriminate|]. intros [[c' Hc] _]. discriminate Hc.
    + unfold asyncSettles in Hs.
      destruct (followUps q) as [| [c' r] rest]; [discriminate|].
      destruct (Nat.eqb c' c && _); [|discriminate].
      inversion Hs; subst q'. cbn [emitQ executionQueueRunning]. rewrite Hr.
      split; [discriminate|]. intros [[c0 Hc] _]. discriminate Hc.
Qed.

(** C7, as amended.  Let the engine call of a unit in flight fail with
    [e], no call of the hook having thrown so far, and let the hook, if
    one is registered, return when it is called with [e].  The rejection
    handler logs the failure, calls the hook with [e], and only then
    rejects the promise of the loop and the promise made for the caller,
    both with [e].  When the loop resumes it catches the failure and logs
    it, nothing else, and carries on: it calls the next pending unit, or
    clears the flag when none is pending.  A caller of [parse] holds the
    promise of an async function: once the follow-ups queued before its
    own have run, that promise is rejected with [e] too.  And whatever the
    engine answers from then on, failures included, the hook returning
    each time, the queue runs dry: every submitted unit gets its engine
    call, in order, and no follow-up is left. *)
Theorem queue_failure_is_isolated
        (d : Document) (ins : list Input) (q : QueueState)
        (u : Unit) (e : JsValue) :
  exec ins (initialQueue d) = Some q ->
  In u (inFlight q) ->
  stalled q = [] ->
  exists q1 q2 q3,
    engineSettles (caller u) (Rejected e) q = Some q1
    /\ trace (world q1)
       = trace (world q)
           ++ [EvLog Error [AStr "Error parsing"; AVal e]]
           ++ match parseError (world q) with
              | Some f => [EvParseError f (AVal e) None]
              | None => []
              end
           ++ [EvRej (caller u) e; EvReject (caller u) e]
    /\ loopResumes (caller u) q1 = Some q2
    /\ trace (world q2)
       = trace (world q1)
           ++ EvLog Error [AStr "Error executing queue"; AVal e]
           :: match executionQueue q with
              | [] => []
              | f :: _ => [EvEngineCall f]
              end
    /\ match executionQueue q with
       | [] => executionQueueRunning q2 = false /\ inFlight q2 = []
       | f :: rest =>
           executionQueueRunning q2 = true /\ inFlight q2 = [f]
           /\ executionQueue q2 = rest
       end
    /\ exec (map (fun a => AsyncSettles (fst a)) (followUps q1)) q2 = Some q3
    /\ asyncSettled (trace (world q3))
       = asyncSettled (trace (world q)) ++ followUps q
           ++ (if holdsAsyncPromise (operation u)
               then [(caller u, Rejected e)] else [])
    /\ forall answer,
        exists q',
          exec (drain answer q) q = Some q'
          /\ executionQueue q' = [] /\ executionQueueRunning q' = false
          /\ inFlight q' = [] /\ followUps q' = []
          /\ map caller (engineCalls (trace (world q'))) = seq 0 (submitted q).
Proof.
  intros Hex Hin Hst.
  pose proof (QueueInv_exec ins _ q (QueueInv_initial d) Hex) as Hq.
  destruct (QueueInv_shape q Hq)
    as [(_ & Hi & _ & _) | [(Hr & Hs & u' & Hi) | (_ & Hi & _)]];
    [ rewrite Hi in Hin; destruct Hin | | rewrite Hi in Hin; destruct Hin ].
  rewrite Hi in Hin. destruct Hin as [<- | []].
  assert (Hdrain : forall answer,
             exists q',
               exec (drain answer q) q = Some q'
               /\ executionQueue q' = [] /\ executionQueueRunning q' = false
               /\ inFlight q' = [] /\ followUps q' = []
               /\ map caller (engineCalls (trace (world q')))
                  = seq 0 (submitted q)).
  { intros answer.
    destruct (drain_runs_dry answer q Hq Hst)
      as (q' & Ex & H1 & H2 & H3 & _ & H5 & _ & H7).
    exists q'. repeat (split; [assumption|]).
    destruct (QueueInv_exec _ _ _ Hq Ex) as (F & _ & _).
    rewrite H1, app_nil_r, H5 in F. exact F. }
  destruct q as [l b fl sc sub [dm h t] st fu].
  cbn [executionQueue world submitted inFlight settledCalls stalled followUps
       executionQueueRunning] in *. subst.
  rewrite engineSettles_single. unfold emitQ at 1. queue_fields.
  cbn [settleHandlers].
  destruct l as [| f rest];
    (do 3 eexists; split; [reflexivity|]; queue_fields;
     split; [reflexivity|];
     rewrite loopResumes_single;
     split; [reflexivity|];
     unfold loopHead, emitQ, setRunning; queue_fields; cbn [caughtLine];
     rewrite followUps_run; queue_fields;
     split; [rewrite <- ?app_assoc; reflexivity|];
     split; [auto|];
     split; [reflexivity|];
     split; [|exact Hdrain];
     queue_fields;
     rewrite !asyncSettled_app, asyncSettled_asyncEvents;
     destruct h; cbn [asyncSettled app]; rewrite ?app_nil_r; reflexivity).
Qed.

(** C7, as the specification states it, fails.  A hook is registered and
    two operations are submitted.  The engine call of the first fails and
    the hook, called with the failure, throws: the rejection handler ends
    there.  The hook has been called, but the promise of the first caller
    is not rejected, then or later; the flag stays set; and the second
    unit, like any unit submitted afterwards, stays pending: whatever
    happens next, no further engine call is made. *)
Lemma throwing_hook_blocks_the_queue :
  exists q,
    exec [SetParseErrorHandler (Handler 0);
          Submit (OpRender "d0" "graph TD; A-->B");
          Submit (OpRender "d2" "graph LR; C-->D");
          HookThrows 0 (VError "Error" "Parse error")]
         (initialQueue sampleDocument) = Some q
    /\ trace (world q)
       = [EvEngineCall (mkUnit 0 (OpRender "d0" "graph TD; A-->B"));
          EvLog Error [AStr "Error parsing";
                       AVal (VError "Error" "Parse error")];
          EvParseError (Handler 0) (AVal (VError "Error" "Parse error")) None]
    /\ executionQueue q = [mkUnit 1 (OpRender "d2" "graph LR; C-->D")]
    /\ forall later q',
        exec later q = Some q' ->
        schedule (trace (world q')) = [Started 0]
        /\ executionQueueRunning q' = true
        /\ In (mkUnit 1 (OpRender "d2" "graph LR; C-->D")) (executionQueue q').
Proof.
  eexists. split; [reflexivity|]. split; [reflexivity|].
  split; [reflexivity|].
  intros later q' H.
  match type of H with
  | exec later ?q0 = _ =>
      assert (Hs : Stuck q0) by (repeat split; eexists; split; reflexivity);
      destruct (Stuck_exec later q0 q' Hs H) as ((Hr & _) & T & l & L)
  end.
  split; [rewrite T; reflexivity|]. split; [exact Hr|].
  rewrite L. simpl. auto.
Qed.

(** An instance: after [sampleInputs] the second unit is the one in
    flight. *)
Lemma queue_is_fifo_and_single_flight_witness :
  exists q,
    exec sampleInputs (initialQueue sampleDocument) = Some q
    /\ map caller (engineCalls (trace (world q))) ++ map caller (executionQueue q)
       = seq 0 (submitted q)
    /\ List.length (inFlight q) <= 1
    /\ inFlight q = [mkUnit 1 (OpRender "d1" "graph LR; C-->D")].
Proof.
  eexists. split; [reflexivity|].
  destruct (queue_is_fifo_and_single_flight sampleDocument sampleInputs _ eq_refl)
    as (F & L & _).
  split; [exact F|]. split; [exact L | reflexivity].
Defined.

(** An instance: the first of two units of [parse] fails, the loop goes on
    to the second, and the promise of the first caller is rejected. *)
Lemma queue_failure_is_isolated_witness :
  exists q q1 q2 q3,
    exec [Submit (OpParse "graph TD; A-->B"); Submit (OpParse "graph LR; C-->D")]
         (initialQueue sampleDocument) = Some q
    /\ In (mkUnit 0 (OpParse "graph TD; A-->B")) (inFlight q)
    /\ stalled q = []
    /\ engineSettles 0 (Rejected (VError "Error" "Parse error")) q = Some q1
    /\ loopResumes 0 q1 = Some q2
    /\ inFlight q2 = [mkUnit 1 (OpParse "graph LR; C-->D")]
    /\ exec [AsyncSettles 0] q2 = Some q3
    /\ asyncSettled (trace (world q3))
       = [(0, Rejected (VError "Error" "Parse error"))].
Proof.
  eexists.
  destruct (queue_failure_is_isolated sampleDocument
              [Submit (OpParse "graph TD; A-->B"); Submit (OpParse "graph LR; C-->D")]
              _ (mkUnit 0 (OpParse "graph TD; A-->B"))
              (VError "Error" "Parse error") eq_refl (or_introl eq_refl) eq_refl)
    as (q1 & q2 & q3 & H1 & _ & H2 & _ & H3 & H4 & H5 & _).
  exists q1, q2, q3. split; [reflexivity|]. split; [left; reflexivity|].
  split; [reflexivity|].
  split; [exact H1|]. split; [exact H2|]. split; [apply H3|].
  assert (Hf : followUps q1 = [(0, Rejected (VError "Error" "Parse error"))])
    by (inversion H1; reflexivity).
  rewrite Hf in H4. split; [exact H4 | exact H5].
Defined.

(* ===================================================================== *)
(** * What the callers of the queue see *)
(* ===================================================================== *)

(** X10.  The schedule of the queue, whatever the interleaving.  The units
    are taken one by one in submission order, and the promise made for a
    unit's caller is settled, with the very answer the engine gave for
    that unit, before the next unit's engine call is made; a unit whose
    rejection handler the hook cut short stays in flight, started and not
    settled.  Nothing is settled twice and nothing is skipped: the units
    settled, the one in flight and the pending ones add up to the
    submissions.  A caller of [render] holds the promise made for it.  A
    caller of [parse] holds the promise of an async function: these
    promises are settled in submission order with the answers given to the
    units of [parse], each by a job that runs after the promise made for
    the caller has been settled and after the loop has gone on from the
    unit. *)
Theorem queue_settles_one_by_one
        (d : Document) (ins : list Input) (q : QueueState) :
  exec ins (initialQueue d) = Some q ->
  schedule (trace (world q))
  = oneByOne (engineAnswers ins)
      ++ map (fun u => Started (caller u)) (inFlight q)
  /\ map fst (engineAnswers ins) = seq 0 (List.length (engineAnswers ins))
  /\ List.length (engineAnswers ins) + List.length (inFlight q)
     + List.length (executionQueue q) = submitted q
  /\ asyncSettled (trace (world q)) ++ followUps q
     = filter (fun a => asyncCaller (operations ins) (fst a))
              (engineAnswers ins)
  /\ forall c q',
      asyncSettles c q = Some q' ->
      existsb (fun p => isCaller c (fst p)) (settledCalls q) = false
      /\ exists r,
          In (Done c r) (schedule (trace (world q)))
          /\ asyncSettled (trace (world q'))
             = asyncSettled (trace (world q)) ++ [(c, r)].
Proof.
  intros Hex.
  pose proof (QueueInv_exec ins _ q (QueueInv_initial d) Hex) as Hq.
  assert (Hs : ScheduleInv (engineAnswers ins) q).
  { apply (ScheduleInv_exec ins [] (initialQueue d) q);
      [apply QueueInv_initial | reflexivity | exact Hex]. }
  destruct (Async_initial d) as [U0 A0].
  destruct (Async_exec ins [] [] (initialQueue d) q (QueueInv_initial d)
              U0 A0 Hex) as [_ [A _]].
  cbn [app] in A.
  split; [exact Hs|].
  destruct Hq as (F & _ & _).
  rewrite <- startedCallers_schedule, Hs, startedCallers_app,
    startedCallers_oneByOne, startedCallers_inFlight, <- app_assoc in F.
  split; [|split; [|split; [exact A|]]].
  - rewrite <- (length_map fst (engineAnswers ins)).
    exact (seq_prefix _ _ _ _ F).
  - apply (f_equal (@List.length nat)) in F.
    rewrite !length_app, !length_map, length_seq in F. lia.
  - intros c q' H. unfold asyncSettles in H.
    destruct (followUps q) as [| [c' r] rest] eqn:Hfu; [discriminate|].
    destruct (Nat.eqb c' c) eqn:Hc; [|discriminate].
    destruct (existsb (fun p => isCaller c (fst p)) (settledCalls q));
      [discriminate|].
    apply Nat.eqb_eq in Hc. subst c'.
    inversion H; subst q'; clear H. split; [reflexivity|].
    exists r. split.
    + rewrite Hs. apply in_or_app. left. apply oneByOne_In.
      assert (Hin : In (c, r)
                       (filter (fun a => asyncCaller (operations ins) (fst a))
                               (engineAnswers ins)))
        by (rewrite <- A; apply in_or_app; right; left; reflexivity).
      apply filter_In in Hin. apply Hin.
    + unfold emitQ. queue_fields. rewrite asyncSettled_app.
      destruct r; reflexivity.
Qed.

(** An instance: [sampleInputs], followed by the job that fulfils the
    promise of the first caller, a caller of [parse]. *)
Lemma queue_settles_one_by_one_witness :
  exists q,
    exec (sampleInputs ++ [AsyncSettles 0]) (initialQueue sampleDocument)
    = Some q
    /\ schedule (trace (world q))
       = [Started 0; Done 0 (Fulfilled "true"); Started 1]
    /\ asyncSettled (trace (world q)) = [(0, Fulfilled "true")].
Proof.
  eexists. split; [reflexivity|].
  destruct (queue_settles_one_by_one sampleDocument
              (sampleInputs ++ [AsyncSettles 0]) _ eq_refl)
    as (S & _ & _ & A & _).
  split; [exact S|]. rewrite app_nil_r in A. exact A.
Defined.

(** X11.  No submission is lost, as long as the hook returns.  Take any
    state the queue can reach in which no call of the hook has thrown,
    and let the engine answer the unit in flight and the pending units,
    each caller [c] with [answer c], the hook returning where it is
    called, the loop resuming after each answer and the queued follow-ups
    running.  Then every unit submitted so far has been started and the
    promise made for its caller settled, once, in submission order, those
    not settled before with the answer the engine gave for their own unit,
    failures of earlier units notwithstanding; every caller of [parse] has
    had the promise it holds settled with that answer; the flag is clear
    and no follow-up is left. *)
Theorem queue_settles_every_promise
        (d : Document) (ins : list Input) (q : QueueState)
        (answer : nat -> Settled string) :
  exec ins (initialQueue d) = Some q ->
  stalled q = [] ->
  exists q',
    exec (ins ++ drain answer q) (initialQueue d) = Some q'
    /\ schedule (trace (world q'))
       = oneByOne (engineAnswers ins
                     ++ map (fun u => (caller u, answer (caller u)))
                            (inFlight q ++ executionQueue q))
    /\ map fst (engineAnswers ins
                  ++ map (fun u => (caller u, answer (caller u)))
                         (inFlight q ++ executionQueue q))
       = seq 0 (submitted q)
    /\ asyncSettled (trace (world q'))
       = filter (fun a => asyncCaller (operations ins) (fst a))
                (engineAnswers ins
                   ++ map (fun u => (caller u, answer (caller u)))
                          (inFlight q ++ executionQueue q))
    /\ followUps q' = []
    /\ executionQueueRunning q' = false.
Proof.
  intros Hex Hst.
  pose proof (QueueInv_exec ins _ q (QueueInv_initial d) Hex) as Hq.
  destruct (drain_runs_dry answer q Hq Hst)
    as (q' & Hd & He & Hr & Hi & _ & Hsub & _ & Hfu).
  assert (Hall : exec (ins ++ drain answer q) (initialQueue d) = Some q')
    by (rewrite exec_app, Hex; exact Hd).
  exists q'. split; [exact Hall|].
  assert (Hs : ScheduleInv (engineAnswers (ins ++ drain answer q)) q').
  { apply (ScheduleInv_exec (ins ++ drain answer q) [] (initialQueue d) q');
      [apply QueueInv_initial | reflexivity | exact Hall]. }
  unfold ScheduleInv in Hs.
  rewrite Hi, app_nil_r, engineAnswers_app, engineAnswers_drain in Hs.
  split; [exact Hs|].
  destruct (QueueInv_exec _ _ q' (QueueInv_initial d) Hall) as (F & _ & _).
  rewrite He, app_nil_r, Hsub in F.
  split.
  { rewrite <- startedCallers_oneByOne, <- Hs, startedCallers_schedule.
    exact F. }
  destruct (Async_initial d) as [U0 A0].
  destruct (Async_exec _ [] [] (initialQueue d) q' (QueueInv_initial d)
              U0 A0 Hall) as [_ [A B]].
  destruct (Async_exec ins [] [] (initialQueue d) q (QueueInv_initial d)
              U0 A0 Hex) as [[_ [Hlen _]] _].
  cbn [app] in A, B, Hlen.
  rewrite Hfu, app_nil_r, engineAnswers_app, engineAnswers_drain in A.
  rewrite engineAnswers_app, engineAnswers_drain in B.
  split; [|split; [exact Hfu | exact Hr]].
  rewrite A. apply filter_ext_in. intros a Ha.
  rewrite operations_app. apply asyncCaller_app.
  assert (Hin : In (fst a) (seq 0 (submitted q)))
    by (rewrite <- F, <- startedCallers_schedule, Hs, startedCallers_oneByOne;
        apply in_map; exact Ha).
  apply in_seq in Hin. lia.
Qed.

(** An instance: two submissions, of which the first is answered with a
    failure. *)
Lemma queue_settles_every_promise_witness :
  exists q',
    exec ([Submit (OpParse "graph TD; A-->B"); Submit (OpRender "d2" "graph LR; C-->D")]
            ++ [EngineSettles 0 (Rejected (VOther "no")); LoopResumes 0;
                AsyncSettles 0;
                EngineSettles 1 (Rejected (VOther "no")); LoopResumes 1])
         (initialQueue sampleDocument) = Some q'
    /\ schedule (trace (world q'))
       = [Started 0; Done 0 (Rejected (VOther "no"));
          Started 1; Done 1 (Rejected (VOther "no"))]
    /\ asyncSettled (trace (world q')) = [(0, Rejected (VOther "no"))].
Proof.
  destruct (queue_settles_every_promise sampleDocument
              [Submit (OpParse "graph TD; A-->B");
               Submit (OpRender "d2" "graph LR; C-->D")]
              _ (fun _ => Rejected (VOther "no")) eq_refl eq_refl)
    as (q' & E & S & _ & A & _).
  exists q'. split; [exact E|]. split; [exact S | exact A].
Defined.

(** X12.  The queue and the hook.  Over any run of the queue, the calls of
    [mermaid.parseError] are exactly these: one for each engine answer that
    is a failure, in the order of the answers, made on the handler that
    [setParseErrorHandler] installed last before the answer came (not the
    one in place when the operation was submitted), with the failure as
    its only argument.  A failure that comes while no handler is installed
    calls nothing, then or later, and an answer that is a result calls
    nothing.  The handler in place at the end is the last one installed. *)
Theorem queue_calls_current_handler
        (d : Document) (ins : list Input) (q : QueueState) :
  exec ins (initialQueue d) = Some q ->
  hookEvents (trace (world q)) = queueHookCalls None ins
  /\ parseError (world q) = handlerAfter None ins.
Proof.
  intros H. destruct (exec_hooks ins (initialQueue d) q H) as (A & B).
  split; [exact A | exact B].
Qed.

(** An instance: a handler installed between submission and answer is the
    one called. *)
Lemma queue_calls_current_handler_witness :
  exists q,
    exec [Submit (OpParse "not a diagram"); SetParseErrorHandler (Handler 1);
          SetParseErrorHandler (Handler 2);
          EngineSettles 0 (Rejected (VOther "no")); LoopResumes 0]
         (initialQueue sampleDocument) = Some q
    /\ hookEvents (trace (world q))
       = [EvParseError (Handler 2) (AVal (VOther "no")) None].
Proof.
  eexists. split; [reflexivity|].
  destruct (queue_calls_current_handler sampleDocument
              [Submit (OpParse "not a diagram"); SetParseErrorHandler (Handler 1);
               SetParseErrorHandler (Handler 2);
               EngineSettles 0 (Rejected (VOther "no")); LoopResumes 0]
              _ eq_refl) as (A & _).
  exact A.
Defined.
